(** * Traffic-jam simulation: a shallow embedding of [traffic_jam_simulation.py]

    The Python class [Departementale] simulates cars on a one-lane circular
    road.  This file embeds its four computational methods
    ([__road], [__create_cars], [__traffic_density], [__simulation]) and the
    computational part of the three plotting methods ([linear_plot],
    [polar_plot], [combined_plot]: everything but the drawing calls), and
    proves properties of them.

    Modelling conventions.
    - The car array is a NumPy integer matrix with one row [[position,
      velocity]] per car; it is modelled as a [list Car] with cells in [Z].
      Cell values stay far inside the 64-bit range for every configuration
      the class is used with, so machine wrap-around is not modelled.
    - [dt], [tmax], [proba_slow], the clock [t] and the entries of the
      road/density vectors are Python floats.  In the world they are read as
      exact rationals [Qc].  The density entries are multiples of 1/4 below 3
      and are therefore exact in binary floating point as well.  The clock is
      not: where a statement is about the value of [self.t], the clock is
      also carried as an IEEE double ([FloatClock], from [PrimFloat]) and the
      two readings are compared.  Statements about cars, occupancy and
      density do not depend on the clock.
    - The global NumPy generator is an explicit stream of raw words together
      with the number of words consumed so far.
    - Python exceptions are modelled by an error monad over the mutable
      world (the object [self], the car array and the generator). *)

From Stdlib Require Import ZArith QArith Qcanon Lia.
From Stdlib Require Import Floats.PrimFloat.
From stdpp Require Import base numbers list option.

#[local] Open Scope Z_scope.

(** ** Data model *)

(** One row of the car array: [car[0]] is the position, [car[1]] the velocity. *)
Record Car := mkCar { position : Z; velocity : Z }.

(** The attributes of a [Departementale] instance.  [t] is not set by
    [__init__]; every caller of [__simulation] assigns [self.t = 0] first. *)
Record Departementale := mkDepartementale {
  L : Z;
  nb_cars : Z;
  vmax : Z;
  tmax : Qc;
  dt : Qc;
  proba_slow : Qc;
  t : Qc
}.

(** The state of [np.random]: the stream fixed by the seed and the number of
    raw words drawn so far. *)
Record RandomState := mkRandomState { stream : nat -> N; consumed : nat }.

(** Everything the methods can read or mutate. *)
Record World := mkWorld {
  self : Departementale;
  cars : list Car;
  np_random : RandomState
}.

Inductive Exception := ValueError | IndexError.

Inductive Outcome (A : Type) : Type :=
| Ok (a : A)
| Raise (e : Exception).
Arguments Ok {A} a.
Arguments Raise {A} e.

(** ** The monad of Python computations *)

Definition Py (A : Type) : Type := World -> Outcome (A * World).

#[global] Instance Py_ret : MRet Py := fun A a w => Ok (a, w).

#[global] Instance Py_bind : MBind Py := fun A B f m w =>
  match m w with
  | Ok (a, w') => f a w'
  | Raise e => Raise e
  end.

Definition raise {A : Type} (e : Exception) : Py A := fun _ => Raise e.

Definition get_self : Py Departementale := fun w => Ok (self w, w).

(** [len(cars)] *)
Definition len_cars : Py nat := fun w => Ok (length (cars w), w).

Inductive Column := col0 | col1.

Definition cell (c : Column) (car : Car) : Z :=
  match c with col0 => position car | col1 => velocity car end.

Definition set_cell (c : Column) (v : Z) (car : Car) : Car :=
  match c with
  | col0 => mkCar v (velocity car)
  | col1 => mkCar (position car) v
  end.

(** [cars[i][c]]: a read through the row view [cars[i]]. *)
Definition get_item (i : nat) (c : Column) : Py Z := fun w =>
  match cars w !! i with
  | Some car => Ok (cell c car, w)
  | None => Raise IndexError
  end.

(** [cars[i][c] = v]: a write through the row view, visible to every other
    view of the same row. *)
Definition set_item (i : nat) (c : Column) (v : Z) : Py unit := fun w =>
  match cars w !! i with
  | Some car =>
      Ok (tt, mkWorld (self w) (<[i := set_cell c v car]> (cars w)) (np_random w))
  | None => Raise IndexError
  end.

(** [self.t += d] *)
Definition iadd_t (d : Qc) : Py unit := fun w =>
  let s := self w in
  Ok (tt, mkWorld
            (mkDepartementale (L s) (nb_cars s) (vmax s) (tmax s) (dt s)
               (proba_slow s) (t s + d)%Qc)
            (cars w) (np_random w)).

(** [self.t = v] *)
Definition assign_t (v : Qc) : Py unit := fun w =>
  let s := self w in
  Ok (tt, mkWorld
            (mkDepartementale (L s) (nb_cars s) (vmax s) (tmax s) (dt s)
               (proba_slow s) v)
            (cars w) (np_random w)).

(** [cars = cs]: binds the local variable of the plotting methods. *)
Definition assign_cars (cs : list Car) : Py unit := fun w =>
  Ok (tt, mkWorld (self w) cs (np_random w)).

(** A [for] loop over a list whose length is fixed when the loop starts. *)
Fixpoint for_each {A : Type} (body : A -> Py unit) (xs : list A) : Py unit :=
  match xs with
  | [] => mret tt
  | x :: xs' => body x ;; for_each body xs'
  end.

(** ** NumPy primitives *)

(** The integer remainder of NumPy: the sign follows the divisor, and a zero
    divisor yields 0 (with a warning). *)
Definition np_mod (a b : Z) : Z := if b =? 0 then 0 else a mod b.

(** Draws one raw word from the generator. *)
Definition next_raw : Py N := fun w =>
  let g := np_random w in
  Ok (stream g (consumed g),
      mkWorld (self w) (cars w) (mkRandomState (stream g) (S (consumed g)))).

(** A raw word read as a double in [[0, 1)]: 53 bits over [2^53]. *)
Definition uniform (r : N) : Qc :=
  Q2Qc (Z.of_N (r mod 2 ^ 53) # 2 ^ 53).

(** [np.random.binomial(1, p)]: rejects [p] outside [[0, 1]], otherwise
    returns 1 with probability [p] and 0 otherwise.  The caller passes
    [1 - self.proba_slow]; NumPy tests the double that subtraction rounds to,
    the model tests the exact difference.  Rounding is monotone and 0 and 1
    are doubles, so the two tests agree whenever [proba_slow] is in
    [[0, 1]] (both accept), and whenever NumPy rejects the exact difference
    is outside [[0, 1]] as well; they can differ only for a [proba_slow]
    outside [[0, 1]] by less than one rounding step. *)
Definition np_random_binomial_1 (p : Qc) : Py Z :=
  if bool_decide (p < 0)%Qc || bool_decide (1 < p)%Qc then raise ValueError
  else r ← next_raw; mret (if bool_decide (uniform r < p)%Qc then 1 else 0).

Fixpoint choose (a : list Z) (n : nat) : Py (list Z) :=
  match n with
  | O => mret []
  | S n' =>
      r ← next_raw;
      rest ← choose a n';
      mret (default 0 (a !! N.to_nat (r mod N.of_nat (length a))) :: rest)
  end.

(** [np.random.choice(a, size)] for a non-empty list [a]: [size] independent
    uniform picks; a negative [size] is rejected.  [choose] spends one raw
    word per pick; NumPy's bounded sampling may spend more, so no statement
    below counts the words a call of [np.random.choice] draws. *)
Definition np_random_choice (a : list Z) (size : Z) : Py (list Z) :=
  if (size <? 0) || bool_decide (a = []) then raise ValueError
  else choose a (Z.to_nat size).

(** [range(start, stop, step)] for a positive [step]. *)
Definition py_range (start stop step : Z) : list Z :=
  (fun k => start + Z.of_nat k * step)
    <$> seq 0 (Z.to_nat ((stop - start + step - 1) / step)).

(** An index into an axis of length [n]: negative indices count from the
    end, anything outside [[-n, n)] raises [IndexError]. *)
Definition np_index (n : Z) (i : Z) : Outcome nat :=
  if (0 <=? i) && (i <? n) then Ok (Z.to_nat i)
  else if (- n <=? i) && (i <? 0) then Ok (Z.to_nat (n + i))
  else Raise IndexError.

(** [np.zeros([1, n])], as its single row. *)
Definition np_zeros (n : Z) : Outcome (list Qc) :=
  if n <? 0 then Raise ValueError else Ok (replicate (Z.to_nat n) 0%Qc).

(** ** The methods of [Departementale] *)

(** [__create_cars] *)
Definition create_cars : Py (list Car) :=
  slf ← get_self;
  js ← np_random_choice [1; 2; 3] (nb_cars slf);
  mret (zip_with mkCar (py_range 1 (nb_cars slf * 2) 2) js).

(** Lines 78-87 of [__simulation]: the successor view, the free-flow
    position and the no-passing clamp.  The view [next_car] is the row index
    it points to; [and] evaluates its operands from left to right and stops at
    the first false one.  Returns the position that line 89 commits. *)
Definition determine_next_position (ix : nat) : Py Z :=
  slf ← get_self;
  n ← len_cars;
  let next_car := if bool_decide (ix = (n - 1)%nat) then 0%nat else (ix + 1)%nat in
  car0 ← get_item ix col0;
  car1 ← get_item ix col1;
  let next_position := np_mod (car0 + car1) (L slf) in
  if bool_decide (ix ≠ (n - 1)%nat) then
    a ← get_item next_car col0;
    if a <=? next_position then
      b ← get_item next_car col0;
      if next_position - b <? 3 then
        c ← get_item next_car col0;
        mret (c - 1)
      else mret next_position
    else mret next_position
  else mret next_position.

(** Lines 90-94: the velocity update, reading the position just committed. *)
Definition update_velocity (ix : nat) (p old_position next_position : Z) : Py unit :=
  slf ← get_self;
  if next_position <? old_position then
    v ← get_item ix col1; set_item ix col1 v
  else
    a ← get_item ix col0;
    b ← get_item ix col0;
    set_item ix col1
      (Z.min ((a - old_position) + 1) (vmax slf) * p
       + Z.max ((b - old_position) - 1) 0 * (1 - p)).

(** The body of the loop of [__simulation] for the car of index [ix]. *)
Definition simulation_body (ix : nat) : Py unit :=
  slf ← get_self;
  p ← np_random_binomial_1 (1 - proba_slow slf)%Qc;
  old_position ← get_item ix col0;
  next_position ← determine_next_position ix;
  set_item ix col0 next_position;;
  update_velocity ix p old_position next_position;;
  (if L slf <? next_position then set_item ix col0 0 else mret tt);;
  iadd_t (dt slf).

(** [__simulation]: one tick. *)
Definition simulation : Py unit :=
  n ← len_cars;
  for_each simulation_body (seq 0 n).

(** [__simulation] with lines 96-97 (the reset to 0 beyond [L]) deleted:
    the comparison program for the claim that the guard is dead code. *)
Definition simulation_body_without_guard (ix : nat) : Py unit :=
  slf ← get_self;
  p ← np_random_binomial_1 (1 - proba_slow slf)%Qc;
  old_position ← get_item ix col0;
  next_position ← determine_next_position ix;
  set_item ix col0 next_position;;
  update_velocity ix p old_position next_position;;
  iadd_t (dt slf).

Definition simulation_without_guard : Py unit :=
  n ← len_cars;
  for_each simulation_body_without_guard (seq 0 n).

(** ** Occupancy and density (pure: they only read [self.L] and [cars]) *)

#[global] Instance Outcome_ret : MRet Outcome := fun A a => Ok a.

#[global] Instance Outcome_bind : MBind Outcome := fun A B f m =>
  match m with
  | Ok a => f a
  | Raise e => Raise e
  end.

(** [v[k]] for a vector [v] and a Python integer [k]. *)
Definition vec_get (v : list Qc) (k : Z) : Outcome Qc :=
  i ← np_index (Z.of_nat (length v)) k;
  match v !! i with
  | Some x => Ok x
  | None => Raise IndexError
  end.

(** [v[k] = x] *)
Definition vec_set (v : list Qc) (k : Z) (x : Qc) : Outcome (list Qc) :=
  i ← np_index (Z.of_nat (length v)) k;
  Ok (<[i := x]> v).

Fixpoint road_loop (r : list Qc) (cs : list Car) : Outcome (list Qc) :=
  match cs with
  | [] => Ok r
  | car :: cs' => r' ← vec_set r (position car) 1%Qc; road_loop r' cs'
  end.

(** [__road] *)
Definition road (slf : Departementale) (cs : list Car) : Outcome (list Qc) :=
  r ← np_zeros (L slf);
  road_loop r cs.

Definition four : Qc := Qc_of_Z 4.

(** The right-hand side of line 68. *)
Definition smooth (r : list Qc) (k : Z) : Outcome Qc :=
  a ← vec_get r (k - 2);
  b ← vec_get r (k - 1);
  c ← vec_get r k;
  d ← vec_get r (k + 1);
  e ← vec_get r (k + 2);
  Ok (a / four + b / 2 + c + d / 2 + e / four)%Qc.

Fixpoint density_loop (r traffic : list Qc) (ks : list Z) : Outcome (list Qc) :=
  match ks with
  | [] => Ok traffic
  | k :: ks' =>
      x ← smooth r k;
      traffic' ← vec_set traffic k x;
      density_loop r traffic' ks'
  end.

(** [__traffic_density] *)
Definition traffic_density (slf : Departementale) (cs : list Car) : Outcome (list Qc) :=
  r ← road slf cs;
  traffic ← np_zeros (L slf);
  density_loop r traffic (py_range 2 (L slf - 2) 1).

(** ** The plotting loop *)

(** What one pass of the loop of [linear_plot] hands to the drawing calls:
    the car array as it stands, its occupancy vector and its density. *)
Record Frame := mkFrame {
  frame_cars : list Car;
  frame_road : list Qc;
  frame_density : list Qc
}.

(** The local variable [cars]. *)
Definition get_cars : Py (list Car) := fun w => Ok (cars w, w).

(** A pure computation that may raise, run inside a method. *)
Definition lift {A : Type} (o : Outcome A) : Py A := fun w =>
  match o with
  | Ok a => Ok (a, w)
  | Raise e => Raise e
  end.

(** The loop [while self.t < self.tmax] of [linear_plot], without the
    drawing: call [__simulation], then compute [__road] and
    [__traffic_density] for the two images.  The loop is cut after [fuel]
    passes.  The test reads the exact clock; the double clock of the code
    can differ from it by rounding, so no statement below says after how
    many passes a run ends. *)
Fixpoint simulation_loop (fuel : nat) : Py (list Frame) :=
  match fuel with
  | O => mret []
  | S fuel' =>
      slf ← get_self;
      if bool_decide (t slf < tmax slf)%Qc then
        simulation;;
        slf' ← get_self;
        cs ← get_cars;
        r ← lift (road slf' cs);
        d ← lift (traffic_density slf' cs);
        rest ← simulation_loop fuel';
        mret (mkFrame cs r d :: rest)
      else mret []
  end.

(** [linear_plot]: create the cars, set the clock to 0, run the loop. *)
Definition linear_plot (fuel : nat) : Py (list Frame) :=
  cs ← create_cars;
  assign_cars cs;;
  assign_t 0%Qc;;
  simulation_loop fuel.

(** * Closed forms of one loop iteration *)

(** The value [np.random.binomial(1, q)] computes from the raw word [r]. *)
Definition go_signal (q : Qc) (r : N) : Z :=
  if bool_decide (uniform r < q)%Qc then 1 else 0.

(** The position a car commits, given the position [succ0] read from its
    successor's row. *)
Definition committed (Lz : Z) (n ix : nat) (car : Car) (succ0 : Z) : Z :=
  let c := np_mod (position car + velocity car) Lz in
  if bool_decide (ix ≠ (n - 1)%nat) && ((succ0 <=? c) && (c - succ0 <? 3))
  then succ0 - 1 else c.

Definition new_velocity (vm p : Z) (car : Car) (np : Z) : Z :=
  if np <? position car then velocity car
  else Z.min (np - position car + 1) vm * p
       + Z.max (np - position car - 1) 0 * (1 - p).

Definition row_after (guard : bool) (Lz vm : Z) (n ix : nat) (car : Car)
    (succ0 p : Z) : Car :=
  let np := committed Lz n ix car succ0 in
  mkCar (if guard && (Lz <? np) then 0 else np) (new_velocity vm p car np).

Definition valid_proba (slf : Departementale) : Prop :=
  (0 <= proba_slow slf)%Qc /\ (proba_slow slf <= 1)%Qc.

Definition successor (n ix : nat) : nat :=
  if bool_decide (ix = (n - 1)%nat) then 0%nat else (ix + 1)%nat.

Definition position_at (cs : list Car) (i : nat) : Z :=
  from_option position 0 (cs !! i).

Definition advance (g : RandomState) (k : nat) : RandomState :=
  mkRandomState (stream g) (k + consumed g).

Definition set_t (slf : Departementale) (v : Qc) : Departementale :=
  mkDepartementale (L slf) (nb_cars slf) (vmax slf) (tmax slf) (dt slf)
    (proba_slow slf) v.

Definition tick_self (slf : Departementale) (d : Qc) : Departementale :=
  set_t slf (t slf + d)%Qc.

(** The car array after the loop has processed the rows [k .. k+m-1] of
    [cs], the first of them with the raw word of index [c0]. *)
Definition rows_after (guard : bool) (Lz vm : Z) (q : Qc) (str : nat -> N)
    (c0 : nat) (cs : list Car) (k m : nat) : list Car :=
  imap (fun i car =>
          if bool_decide (k <= i < k + m)%nat
          then row_after guard Lz vm (length cs) i car
                 (position_at cs (successor (length cs) i))
                 (go_signal q (str (c0 + (i - k))%nat))
          else car) cs.

Definition body (guard : bool) : nat -> Py unit :=
  if guard then simulation_body else simulation_body_without_guard.

(** ** Notions used in the statements *)

(** The violation that the no-passing rule excludes: a car at [p] has reached
    or passed a successor at [s] by fewer than 3 cells. *)
Definition passes (p s : Z) : Prop := s <= p /\ p - s < 3.

(** A stream that yields the raw words of [l] and then zeros. *)
Definition stream_of (l : list N) : nat -> N := fun i => default 0%N (l !! i).

(** The largest 53-bit word: the double just below 1. *)
Definition hi : N := (2 ^ 53 - 1)%N.

(** The configuration and cars of the first scenario of the specification:
    [L = 10], two cars at 1 and 6 with velocity 1, [proba_slow = 0]. *)
Definition scenario_self : Departementale :=
  mkDepartementale 10 2 3 (Qc_of_Z 200) (Q2Qc (1 # 10)) 0%Qc 0%Qc.

Definition scenario_world : World :=
  mkWorld scenario_self [mkCar 1 1; mkCar 6 1]
    (mkRandomState (stream_of [0; hi]%N) 0).

(** The element [np.random.choice] picks from [a] for the raw word [r]. *)
Definition pick (a : list Z) (r : N) : Z :=
  default 0 (a !! N.to_nat (r mod N.of_nat (length a))).


(** Cell [k] of the road holds a car: some row's position indexes it (a
    negative position counts from the end of the road, as NumPy indexing
    does). *)
Definition occupied (n : Z) (cs : list Car) (k : nat) : Prop :=
  exists car, car ∈ cs /\ np_index n (position car) = Ok k.

(** The distance between two cells. *)
Definition apart (j k : nat) : Z := Z.abs (Z.of_nat j - Z.of_nat k).

(** The boundary indices that the smoothing loop never writes. *)
Definition boundary (Lz : Z) (k : nat) : Prop :=
  Z.of_nat k < 2 \/ Lz - 2 <= Z.of_nat k.

Definition half : Qc := Q2Qc (1 # 2).

Definition quarter : Qc := Q2Qc (1 # 4).

(** The car in cell [c] has no other car within [radius] cells. *)
Definition isolated (n : Z) (cs : list Car) (c : nat) (radius : Z) : Prop :=
  forall k, occupied n cs k -> k = c \/ radius < apart k c.

(** A road of 12 cells with cars in cells 4 and 7. *)
Definition two_bumps_self : Departementale :=
  mkDepartementale 12 2 3 (Qc_of_Z 200) (Q2Qc (1 # 10)) (Q2Qc (1 # 4)) 0%Qc.

Definition two_bumps_cars : list Car := [mkCar 4 1; mkCar 7 2].

(** The density vector if the call returned one, the empty vector if it
    raised. *)
Definition density_or_nil (slf : Departementale) (cs : list Car) : list Qc :=
  match traffic_density slf cs with
  | Ok d => d
  | Raise _ => []
  end.

Definition three_quarters : Qc := Q2Qc (3 # 4).

(** A road of 12 cells with a single car, in cell 5. *)
Definition lone_car_cars : list Car := [mkCar 5 1].

(** [__init__]: stores the six parameters.  The attribute [t] does not exist
    yet; the plotting methods assign it before the first call of
    [__simulation], so the value given here is never read by them. *)
Definition init (L_ nb_cars_ vmax_ : Z) (tmax_ dt_ proba_slow_ : Qc) : Departementale :=
  mkDepartementale L_ nb_cars_ vmax_ tmax_ dt_ proba_slow_ 0%Qc.

(** The world in which a plotting method of a fresh instance starts, with the
    generator in state [g]. *)
Definition fresh_world (slf : Departementale) (g : RandomState) : World :=
  mkWorld slf [] g.

(** What a run shows: the frames, or the exception. *)
Definition frames_of (o : Outcome (list Frame * World)) : Outcome (list Frame) :=
  match o with
  | Ok (frames, _) => Ok frames
  | Raise e => Raise e
  end.

(** The positions and velocities of all cars after each tick of a run. *)
Definition trajectory_of (o : Outcome (list Frame * World)) : Outcome (list (list Car)) :=
  match o with
  | Ok (frames, _) => Ok (frame_cars <$> frames)
  | Raise e => Raise e
  end.

(** A run that leaves the documented bounds: [L = 9], two cars, [vmax = 3],
    [proba_slow = 1/4].  The generator yields the raw words below: both
    initial velocities are 3, and the Bernoulli draws of the first four ticks
    are (0, 1), (0, 1), (1, 1), (0, 1). *)
Definition off_road_self : Departementale :=
  init 9 2 3 (Qc_of_Z 200) (Q2Qc (1 # 10)) (Q2Qc (1 # 4)).

Definition off_road_generator : RandomState :=
  mkRandomState (stream_of [2; 2; hi; 0; hi; 0; 0; 0; hi; 0]%N) 0.

(** The car array after a call, or the exception. *)
Definition cars_after (o : Outcome (unit * World)) : Outcome (list Car) :=
  match o with
  | Ok (_, w) => Ok (cars w)
  | Raise e => Raise e
  end.

(** The second scenario of the specification: two cars 2 cells apart,
    [proba_slow = 0]. *)
Definition close_world : World :=
  mkWorld scenario_self [mkCar 1 3; mkCar 3 1]
    (mkRandomState (stream_of [0; hi]%N) 0).

(** The last car wraps around onto the first one. *)
Definition wrap_world : World :=
  mkWorld scenario_self [mkCar 2 0; mkCar 9 3]
    (mkRandomState (stream_of [0; hi]%N) 0).

(** The road vector if the call returned one, the empty vector if it raised. *)
Definition road_or_nil (slf : Departementale) (cs : list Car) : list Qc :=
  match road slf cs with
  | Ok r => r
  | Raise _ => []
  end.


(** ** Notions used in the further properties *)

(** A position that indexes a road of [Lz] cells (from the front, or from
    the end when it is negative). *)
Definition on_road (Lz : Z) (car : Car) : Prop :=
  - Lz <= position car < Lz.

(** The largest value of the 5-tap kernel: 1/4 + 1/2 + 1 + 1/2 + 1/4. *)
Definition five_halves : Qc := Q2Qc (5 # 2).


(** The first scenario with a generator that differs in its second word. *)
Definition scenario_world' : World :=
  mkWorld scenario_self [mkCar 1 1; mkCar 6 1]
    (mkRandomState (stream_of [0; 0]%N) 0).

(** Every row has a non-negative position and a velocity between 0 and
    [vmax], and no row after the first sits in cell 0. *)
Definition well_placed (vm : Z) (cs : list Car) : Prop :=
  forall ix car,
    cs !! ix = Some car ->
    0 <= position car /\ 0 <= velocity car <= vm /\ ((0 < ix)%nat -> 1 <= position car).


(** The first scenario with [proba_slow = 1]: every draw says "slow". *)
Definition braking_world : World :=
  mkWorld (mkDepartementale 10 2 3 (Qc_of_Z 200) (Q2Qc (1 # 10)) 1%Qc 0%Qc)
    [mkCar 1 1; mkCar 6 1]
    (mkRandomState (stream_of [0; hi]%N) 0).


(** ** Notions used for whole runs *)

(** The largest velocity a run can write: the initial velocities go up to 3,
    an accelerating car is capped by [vmax], and a braking car that re-enters
    the road from a negative position can be given up to
    [L + nb_cars - 3]. *)
Definition velocity_cap (slf : Departementale) : Z :=
  Z.max (Z.max 3 (vmax slf)) (L slf + nb_cars slf - 2).

(** What every row of a running simulation satisfies: the row of index [ix]
    is at most [nb_cars - 1 - ix] cells below 0, and its velocity is between
    0 and [velocity_cap]. *)
Definition in_run_bounds (slf : Departementale) (cs : list Car) : Prop :=
  forall ix car,
    cs !! ix = Some car ->
    - (nb_cars slf - 1 - Z.of_nat ix) <= position car /\
    0 <= velocity car <= velocity_cap slf.

(** The state of a run between two ticks, for a configuration with a road of
    positive length, a non-negative [vmax], [proba_slow] in [[0, 1]] and at
    most [L] cars. *)
Definition run_invariant (w : World) : Prop :=
  0 < L (self w) /\
  0 <= vmax (self w) /\
  valid_proba (self w) /\
  0 <= nb_cars (self w) <= L (self w) /\
  Z.of_nat (length (cars w)) = nb_cars (self w) /\
  in_run_bounds (self w) (cars w).

(** A frame of a run of the instance [slf]: [nb_cars] rows within the run
    bounds and on the road, with the occupancy and density vectors that
    [__road] and [__traffic_density] return for them. *)
Definition frame_in_bounds (slf : Departementale) (f : Frame) : Prop :=
  Z.of_nat (length (frame_cars f)) = nb_cars slf /\
  (forall ix car,
      frame_cars f !! ix = Some car ->
      - (nb_cars slf - 1 - Z.of_nat ix) <= position car < L slf /\
      0 <= velocity car <= velocity_cap slf) /\
  road slf (frame_cars f) = Ok (frame_road f) /\
  traffic_density slf (frame_cars f) = Ok (frame_density f).

(** The clock advance of one tick: [nb_cars] additions of [dt]. *)
Definition tick_length (slf : Departementale) : Qc :=
  (Qc_of_Z (nb_cars slf) * dt slf)%Qc.


(** ** The other two plotting methods *)

(** [np.linspace(0, 1, n)], kept for what it does to the control flow: it
    raises [ValueError] for a negative [n].  The angles it returns are only
    drawn. *)
Definition np_linspace_check (n : Z) : Outcome unit :=
  if n <? 0 then Raise ValueError else Ok tt.

(** What one pass of the loop of [polar_plot] computes: the car array and the
    occupancy vector that colours the ring. *)
Record PolarFrame := mkPolarFrame {
  polar_cars : list Car;
  polar_road : list Qc
}.

(** The loop of [polar_plot], without the drawing. *)
Fixpoint polar_loop (fuel : nat) : Py (list PolarFrame) :=
  match fuel with
  | O => mret []
  | S fuel' =>
      slf ← get_self;
      if bool_decide (t slf < tmax slf)%Qc then
        simulation;;
        slf' ← get_self;
        cs ← get_cars;
        r ← lift (road slf' cs);
        rest ← polar_loop fuel';
        mret (mkPolarFrame cs r :: rest)
      else mret []
  end.

(** [polar_plot]: create the cars, compute the angles, set the clock to 0,
    run the loop. *)
Definition polar_plot (fuel : nat) : Py (list PolarFrame) :=
  cs ← create_cars;
  assign_cars cs;;
  slf ← get_self;
  lift (np_linspace_check (L slf));;
  assign_t 0%Qc;;
  polar_loop fuel.

(** What one pass of the loop of [combined_plot] computes: the car array,
    the occupancy vector for the ring, the occupancy vector for the strip, and
    the density. *)
Record CombinedFrame := mkCombinedFrame {
  combined_cars : list Car;
  combined_ring : list Qc;
  combined_road : list Qc;
  combined_density : list Qc
}.

(** The loop of [combined_plot], without the drawing. *)
Fixpoint combined_loop (fuel : nat) : Py (list CombinedFrame) :=
  match fuel with
  | O => mret []
  | S fuel' =>
      slf ← get_self;
      if bool_decide (t slf < tmax slf)%Qc then
        simulation;;
        slf' ← get_self;
        cs ← get_cars;
        ring ← lift (road slf' cs);
        r ← lift (road slf' cs);
        d ← lift (traffic_density slf' cs);
        rest ← combined_loop fuel';
        mret (mkCombinedFrame cs ring r d :: rest)
      else mret []
  end.

(** [combined_plot] *)
Definition combined_plot (fuel : nat) : Py (list CombinedFrame) :=
  cs ← create_cars;
  assign_cars cs;;
  slf ← get_self;
  lift (np_linspace_check (L slf));;
  assign_t 0%Qc;;
  combined_loop fuel.

(** The positions and velocities after each tick of a run of [polar_plot]. *)
Definition polar_trajectory_of (o : Outcome (list PolarFrame * World))
    : Outcome (list (list Car)) :=
  match o with
  | Ok (frames, _) => Ok (polar_cars <$> frames)
  | Raise e => Raise e
  end.

(** The positions and velocities after each tick of a run of
    [combined_plot]. *)
Definition combined_trajectory_of (o : Outcome (list CombinedFrame * World))
    : Outcome (list (list Car)) :=
  match o with
  | Ok (frames, _) => Ok (combined_cars <$> frames)
  | Raise e => Raise e
  end.


(** The first scenario with no car at all. *)
Definition empty_world : World :=
  mkWorld (mkDepartementale 10 0 3 (Qc_of_Z 200) (Q2Qc (1 # 10)) 0%Qc 0%Qc) []
    (mkRandomState (stream_of [0; hi]%N) 0).


(** ** The clock in binary64 *)

(** The attributes [t] and [dt] as the IEEE doubles the interpreter holds.
    The rational fields [t] and [dt] of [Departementale] follow the same
    updates in exact arithmetic. *)
Record FloatClock := mkFloatClock { ft : float; fdt : float }.

(** Line 98, [self.t += self.dt], on doubles. *)
Definition iadd_t_float (c : FloatClock) : FloatClock :=
  mkFloatClock (ft c + fdt c)%float (fdt c).

(** The loop of [__simulation] with the double clock carried beside the
    world: each pass runs the body for one row and, with it, line 98 on the
    doubles. *)
Fixpoint for_each_float (xs : list nat) (w : World) (c : FloatClock)
    : Outcome (World * FloatClock) :=
  match xs with
  | [] => Ok (w, c)
  | ix :: xs' =>
      match simulation_body ix w with
      | Ok (_, w') => for_each_float xs' w' (iadd_t_float c)
      | Raise e => Raise e
      end
  end.

(** [__simulation], with the clock it really advances. *)
Definition simulation_float (w : World) (c : FloatClock) : Outcome (World * FloatClock) :=
  for_each_float (seq 0 (length (cars w))) w c.

(** The double clock after a call, if the call returns. *)
Definition float_clock_after (w : World) (c : FloatClock) : option float :=
  match simulation_float w c with
  | Ok (_, c') => Some (ft c')
  | Raise _ => None
  end.

(** [Departementale()]: the defaults of [__init__], with the 15 cars at
    their initial positions, and the clock as [linear_plot] starts it:
    [t = 0] and [dt] the double nearest to 0.1. *)
Definition default_self : Departementale :=
  init 100 15 3 (Qc_of_Z 200) (Q2Qc (1 # 10)) (Q2Qc (1 # 4)).

Definition default_world : World :=
  mkWorld default_self ((fun k => mkCar (2 * Z.of_nat k + 1) 1) <$> seq 0 15)
    (mkRandomState (stream_of []) 0).

Definition default_clock : FloatClock :=
  mkFloatClock 0%float 0x1.999999999999ap-4%float.


(** ** Notions used for determinism *)

(** Two instances built with the same six parameters (their clocks may
    differ). *)
Definition same_parameters (s1 s2 : Departementale) : Prop :=
  L s1 = L s2 /\ nb_cars s1 = nb_cars s2 /\ vmax s1 = vmax s2 /\
  tmax s1 = tmax s2 /\ dt s1 = dt s2 /\ proba_slow s1 = proba_slow s2.

(** The next [n] draws of two generators are the same values, wherever each
    generator stands and whatever it yields later. *)
Definition same_next_draws (n : nat) (g1 g2 : RandomState) : Prop :=
  forall i, (i < n)%nat ->
    stream g1 (consumed g1 + i)%nat = stream g2 (consumed g2 + i)%nat.

(** A second start for the run of [off_road_self]: the instance has been run
    before (its clock stands at 7 and an old car array is around), and the
    generator stands one word further in a stream that yields the same draws
    for the creation and for four ticks, and others afterwards. *)
Definition rerun_world : World :=
  mkWorld (set_t off_road_self (Qc_of_Z 7)) [mkCar 5 2]
    (mkRandomState (stream_of [1; 2; 2; hi; 0; hi; 0; 0; 0; hi; 0; hi; hi]%N) 1).

(** The world a call of [__create_cars] leaves, or the world itself if the
    call raised. *)
Definition after_create_cars (w : World) : World :=
  match create_cars w with
  | Ok (_, w') => w'
  | Raise _ => w
  end.


(** The scenario world with [proba_slow = 2]. *)
Definition invalid_proba_world : World :=
  mkWorld
    (mkDepartementale (L scenario_self) (nb_cars scenario_self) (vmax scenario_self)
       (tmax scenario_self) (dt scenario_self) 2%Qc (t scenario_self))
    (cars scenario_world) (np_random scenario_world).

(** * Evaluation lemmas *)

Lemma bind_eval {A B : Type} (m : Py A) (f : A -> Py B) (w : World) :
  (m ≫= f) w = match m w with Ok (a, w') => f a w' | Raise e => Raise e end.
Proof. reflexivity. Qed.

Lemma binomial_valid (slf : Departementale) (w : World) :
  valid_proba slf ->
  np_random_binomial_1 (1 - proba_slow slf)%Qc w
  = Ok (go_signal (1 - proba_slow slf)%Qc (stream (np_random w) (consumed (np_random w))),
        mkWorld (self w) (cars w) (advance (np_random w) 1)).
Proof.
  intros [H0 H1]. unfold np_random_binomial_1.
  rewrite !bool_decide_eq_false_2; [reflexivity | |].
  - apply Qcle_not_lt. apply Qcle_minus_iff.
    replace (1 + - (1 - proba_slow slf))%Qc with (proba_slow slf) by ring.
    exact H0.
  - apply Qcle_not_lt. apply Qcle_minus_iff in H1. exact H1.
Qed.

Lemma determine_eval (w : World) (ix : nat) (car : Car) :
  cars w !! ix = Some car ->
  determine_next_position ix w
  = Ok (committed (L (self w)) (length (cars w)) ix car
          (position_at (cars w) (successor (length (cars w)) ix)), w).
Proof.
  intros Hix.
  assert (Hlt : (ix < length (cars w))%nat) by (eapply lookup_lt_Some; eauto).
  unfold determine_next_position, committed, position_at, successor.
  unfold mbind, Py_bind, get_self, len_cars, get_item, mret, Py_ret.
  rewrite Hix; cbn [cell]. rewrite Hix; cbn [cell].
  destruct (bool_decide (ix ≠ (length (cars w) - 1)%nat)) eqn:Hlast; [|reflexivity].
  apply bool_decide_eq_true_1 in Hlast.
  rewrite bool_decide_eq_false_2 by done.
  destruct (lookup_lt_is_Some_2 (cars w) (ix + 1)) as [nc Hnc]; [lia|].
  rewrite !Hnc. cbn [andb from_option cell].
  destruct (position nc <=? _); [|reflexivity].
  rewrite Hnc. cbn [andb cell].
  destruct (_ <? 3); [|reflexivity].
  rewrite Hnc. reflexivity.
Qed.

Lemma get_item_eval (w : World) (ix : nat) (c : Column) (car : Car) :
  cars w !! ix = Some car -> get_item ix c w = Ok (cell c car, w).
Proof. intros H. unfold get_item. rewrite H. reflexivity. Qed.

Lemma set_item_eval (w : World) (ix : nat) (c : Column) (v : Z) (car : Car) :
  cars w !! ix = Some car ->
  set_item ix c v w
  = Ok (tt, mkWorld (self w) (<[ix := set_cell c v car]> (cars w)) (np_random w)).
Proof. intros H. unfold set_item. rewrite H. reflexivity. Qed.

Lemma update_velocity_eval (w : World) (ix : nat) (p old np : Z) (car : Car) :
  cars w !! ix = Some car ->
  position car = np ->
  update_velocity ix p old np w
  = Ok (tt, mkWorld (self w)
              (<[ix := mkCar np (new_velocity (vmax (self w)) p (mkCar old (velocity car)) np)]>
                 (cars w))
              (np_random w)).
Proof.
  intros Hix Hnp. unfold update_velocity, new_velocity. cbn [position velocity].
  rewrite bind_eval. unfold get_self at 1.
  destruct (np <? old).
  - rewrite bind_eval, (get_item_eval _ _ _ car) by done.
    rewrite (set_item_eval _ _ _ _ car) by done.
    destruct car; cbn in *; subst; reflexivity.
  - rewrite bind_eval, (get_item_eval _ _ _ car) by done.
    rewrite bind_eval, (get_item_eval _ _ _ car) by done.
    rewrite (set_item_eval _ _ _ _ car) by done.
    destruct car; cbn in *; subst; reflexivity.
Qed.

Lemma body_eval (guard : bool) (w : World) (ix : nat) (car : Car) :
  valid_proba (self w) ->
  cars w !! ix = Some car ->
  body guard ix w
  = Ok (tt,
        mkWorld (tick_self (self w) (dt (self w)))
          (<[ix := row_after guard (L (self w)) (vmax (self w)) (length (cars w)) ix car
                     (position_at (cars w) (successor (length (cars w)) ix))
                     (go_signal (1 - proba_slow (self w))%Qc
                        (stream (np_random w) (consumed (np_random w))))]> (cars w))
          (advance (np_random w) 1)).
Proof.
  intros Hv Hix.
  assert (Hlt : (ix < length (cars w))%nat) by (eapply lookup_lt_Some; eauto).
  unfold row_after.
  set (np := committed (L (self w)) (length (cars w)) ix car
                     (position_at (cars w) (successor (length (cars w)) ix))).
  set (p := go_signal _ _).
  destruct guard; unfold body, simulation_body, simulation_body_without_guard.
  - rewrite bind_eval. unfold get_self at 1. rewrite bind_eval, binomial_valid by done.
    rewrite bind_eval, (get_item_eval _ _ _ car) by done.
    rewrite bind_eval, (determine_eval _ ix car) by done. cbn [cars self]. fold np.
    rewrite bind_eval, (set_item_eval _ _ _ _ car) by done. cbn [cars self np_random].
    rewrite bind_eval.
    rewrite (update_velocity_eval _ _ _ _ _ (set_cell col0 np car))
      by (cbn [cars]; first [apply list_lookup_insert_eq; done | reflexivity]).
    cbn [cars self np_random set_cell velocity cell].
    rewrite list_insert_insert_eq.
    rewrite bind_eval.
    destruct (L (self w) <? np) eqn:Hg; cbn [andb].
    + erewrite set_item_eval by (cbn [cars]; apply list_lookup_insert_eq; done).
      cbn [cars self np_random set_cell velocity]. rewrite list_insert_insert_eq.
      unfold iadd_t. cbn [cars self np_random]. destruct car; reflexivity.
    + unfold mret at 1, Py_ret. unfold iadd_t. cbn [cars self np_random].
      destruct car; reflexivity.
  - rewrite bind_eval. unfold get_self at 1. rewrite bind_eval, binomial_valid by done.
    rewrite bind_eval, (get_item_eval _ _ _ car) by done.
    rewrite bind_eval, (determine_eval _ ix car) by done. cbn [cars self]. fold np.
    rewrite bind_eval, (set_item_eval _ _ _ _ car) by done. cbn [cars self np_random].
    rewrite bind_eval.
    rewrite (update_velocity_eval _ _ _ _ _ (set_cell col0 np car))
      by (cbn [cars]; first [apply list_lookup_insert_eq; done | reflexivity]).
    cbn [cars self np_random set_cell velocity cell andb].
    rewrite list_insert_insert_eq.
    unfold iadd_t. cbn [cars self np_random]. destruct car; reflexivity.
Qed.

Lemma committed_last (Lz : Z) (n : nat) (car : Car) (s s' : Z) :
  committed Lz n (n - 1) car s = committed Lz n (n - 1) car s'.
Proof.
  unfold committed. rewrite bool_decide_eq_false_2 by (intros H; apply H; reflexivity).
  reflexivity.
Qed.

Lemma row_after_last (guard : bool) (Lz vm : Z) (n : nat) (car : Car) (s s' p : Z) :
  row_after guard Lz vm n (n - 1) car s p = row_after guard Lz vm n (n - 1) car s' p.
Proof. unfold row_after. rewrite (committed_last Lz n car s s'). reflexivity. Qed.

Lemma successor_not_last (n i : nat) :
  i <> (n - 1)%nat -> successor n i = (i + 1)%nat.
Proof. intros H. unfold successor. rewrite bool_decide_eq_false_2 by done. reflexivity. Qed.

Lemma position_at_insert_ne (cs : list Car) (k j : nat) (c : Car) :
  k <> j -> position_at (<[k := c]> cs) j = position_at cs j.
Proof. intros H. unfold position_at. rewrite list_lookup_insert_ne by done. reflexivity. Qed.

Lemma rows_after_step (guard : bool) (Lz vm : Z) (q : Qc) (str : nat -> N)
    (c0 : nat) (cs : list Car) (k m : nat) (car : Car) :
  cs !! k = Some car ->
  rows_after guard Lz vm q str (1 + c0)
    (<[k := row_after guard Lz vm (length cs) k car
              (position_at cs (successor (length cs) k)) (go_signal q (str c0))]> cs)
    (S k) m
  = rows_after guard Lz vm q str c0 cs k (S m).
Proof.
  intros Hk. assert (Hlt : (k < length cs)%nat) by (eapply lookup_lt_Some; eauto).
  apply list_eq; intros i. unfold rows_after.
  rewrite !list_lookup_imap, length_insert.
  destruct (decide (i = k)) as [->|Hne].
  - rewrite list_lookup_insert_eq, Hk by done. cbn [fmap option_fmap option_map].
    rewrite bool_decide_eq_false_2 by lia. rewrite bool_decide_eq_true_2 by lia.
    replace (c0 + (k - k))%nat with c0 by lia. reflexivity.
  - rewrite list_lookup_insert_ne by done.
    destruct (cs !! i) as [ci|] eqn:Hi; [|reflexivity]. cbn [fmap option_fmap option_map].
    assert (Hil : (i < length cs)%nat) by (eapply lookup_lt_Some; eauto).
    destruct (decide (S k <= i < S k + m)%nat) as [Hin|Hout].
    + rewrite !bool_decide_eq_true_2 by lia.
      replace (1 + c0 + (i - S k))%nat with (c0 + (i - k))%nat by lia.
      destruct (decide (i = (length cs - 1)%nat)) as [->|Hnl].
      * f_equal. apply row_after_last.
      * rewrite (successor_not_last _ i) by done.
        rewrite position_at_insert_ne by lia. reflexivity.
    + rewrite !bool_decide_eq_false_2 by lia. reflexivity.
Qed.

Lemma loop_eval (guard : bool) (m : nat) :
  forall (k : nat) (w : World),
    valid_proba (self w) ->
    (k + m <= length (cars w))%nat ->
    for_each (body guard) (seq k m) w
    = Ok (tt,
          mkWorld
            (set_t (self w) (Nat.iter m (fun x => (x + dt (self w))%Qc) (t (self w))))
            (rows_after guard (L (self w)) (vmax (self w)) (1 - proba_slow (self w))%Qc
               (stream (np_random w)) (consumed (np_random w)) (cars w) k m)
            (advance (np_random w) m)).
Proof.
  induction m as [|m IH]; intros k w Hv Hlen.
  - cbn [seq for_each Nat.iter]. unfold mret, Py_ret. f_equal. f_equal.
    destruct w as [s cs g]; cbn [self cars np_random]. f_equal.
    + destruct s; reflexivity.
    + apply list_eq; intros i. unfold rows_after. rewrite list_lookup_imap.
      destruct (cs !! i); [|reflexivity]. cbn.
      rewrite bool_decide_eq_false_2 by lia. reflexivity.
    + destruct g; reflexivity.
  - cbn [seq for_each].
    destruct (lookup_lt_is_Some_2 (cars w) k) as [car Hcar]; [lia|].
    rewrite bind_eval.
    rewrite (body_eval guard w k car Hv Hcar).
    rewrite IH; cbn [self cars np_random tick_self set_t L vmax proba_slow dt t
                       stream consumed advance].
    + rewrite (rows_after_step guard _ _ _ _ _ _ _ _ car Hcar).
      f_equal. f_equal. f_equal.
      * unfold set_t. cbn [L nb_cars vmax tmax dt proba_slow t]. f_equal.
        rewrite Nat.iter_succ_r. reflexivity.
      * unfold advance. cbn [stream consumed]. f_equal. lia.
    + exact Hv.
    + rewrite length_insert. lia.
Qed.

Lemma simulation_eval (guard : bool) (w : World) :
  valid_proba (self w) ->
  (if guard then simulation else simulation_without_guard) w
  = Ok (tt,
        mkWorld
          (set_t (self w)
             (Nat.iter (length (cars w)) (fun x => (x + dt (self w))%Qc) (t (self w))))
          (rows_after guard (L (self w)) (vmax (self w)) (1 - proba_slow (self w))%Qc
             (stream (np_random w)) (consumed (np_random w)) (cars w) 0
             (length (cars w)))
          (advance (np_random w) (length (cars w)))).
Proof.
  intros Hv.
  pose proof (loop_eval guard (length (cars w)) 0 w Hv (Nat.le_refl _)) as H.
  destruct guard; unfold simulation, simulation_without_guard;
    rewrite bind_eval; unfold len_cars; exact H.
Qed.

Lemma rows_after_lookup (guard : bool) (Lz vm : Z) (q : Qc) (str : nat -> N)
    (c0 : nat) (cs : list Car) (i : nat) (car : Car) :
  cs !! i = Some car ->
  rows_after guard Lz vm q str c0 cs 0 (length cs) !! i
  = Some (row_after guard Lz vm (length cs) i car
            (position_at cs (successor (length cs) i))
            (go_signal q (str (c0 + i)%nat))).
Proof.
  intros Hi. assert (Hlt : (i < length cs)%nat) by (eapply lookup_lt_Some; eauto).
  unfold rows_after. rewrite list_lookup_imap, Hi. cbn [fmap option_fmap option_map].
  rewrite bool_decide_eq_true_2 by lia. rewrite Nat.sub_0_r. reflexivity.
Qed.

Lemma rows_after_length (guard : bool) (Lz vm : Z) (q : Qc) (str : nat -> N)
    (c0 : nat) (cs : list Car) (k m : nat) :
  length (rows_after guard Lz vm q str c0 cs k m) = length cs.
Proof. unfold rows_after. apply length_imap. Qed.

(** ** Arithmetic of one car's move *)

Lemma np_mod_range (a Lz : Z) : 0 < Lz -> 0 <= np_mod a Lz < Lz.
Proof.
  intros H. unfold np_mod. destruct (Z.eqb_spec Lz 0); [lia|].
  apply Z.mod_pos_bound. exact H.
Qed.

Lemma committed_lt (Lz : Z) (n ix : nat) (car : Car) (s : Z) :
  0 < Lz -> committed Lz n ix car s < Lz.
Proof.
  intros H. unfold committed.
  pose proof (np_mod_range (position car + velocity car) Lz H) as Hr.
  destruct (bool_decide _ && _) eqn:Hc; [|lia].
  apply andb_prop in Hc as [_ Hc]. apply andb_prop in Hc as [Hc _].
  apply Z.leb_le in Hc. lia.
Qed.

Lemma committed_no_passing (Lz : Z) (n ix : nat) (car : Car) (s : Z) :
  ix <> (n - 1)%nat ->
  ~ (s <= committed Lz n ix car s /\ committed Lz n ix car s - s < 3).
Proof.
  intros Hix. unfold committed. rewrite bool_decide_eq_true_2 by done. cbn [andb].
  destruct (_ && _) eqn:Hc; [lia|].
  apply andb_false_iff in Hc as [Hc|Hc]; [apply Z.leb_gt in Hc | apply Z.ltb_ge in Hc]; lia.
Qed.

Lemma committed_free_flow (Lz : Z) (n : nat) (car : Car) (s : Z) :
  committed Lz n (n - 1) car s = np_mod (position car + velocity car) Lz.
Proof.
  unfold committed. rewrite bool_decide_eq_false_2 by (intros H; apply H; reflexivity).
  reflexivity.
Qed.

Lemma row_after_guard_dead (Lz vm : Z) (n ix : nat) (car : Car) (s p : Z) :
  0 < Lz ->
  row_after true Lz vm n ix car s p = row_after false Lz vm n ix car s p.
Proof.
  intros H. unfold row_after. cbn [andb].
  pose proof (committed_lt Lz n ix car s H) as Hlt.
  destruct (Z.ltb_spec Lz (committed Lz n ix car s)); [lia|reflexivity].
Qed.

Lemma row_after_position (guard : bool) (Lz vm : Z) (n ix : nat) (car : Car) (s p : Z) :
  0 < Lz ->
  position (row_after guard Lz vm n ix car s p) = committed Lz n ix car s.
Proof.
  intros H. destruct guard; [rewrite row_after_guard_dead by done|]; reflexivity.
Qed.

Lemma binomial_invalid (slf : Departementale) (w : World) :
  ~ valid_proba slf ->
  np_random_binomial_1 (1 - proba_slow slf)%Qc w = Raise ValueError.
Proof.
  intros Hn. unfold np_random_binomial_1.
  assert (H : (1 - proba_slow slf < 0)%Qc \/ (1 < 1 - proba_slow slf)%Qc).
  { destruct (Qclt_le_dec (proba_slow slf) 0) as [Hneg|Hpos].
    - right. apply Qclt_minus_iff. apply Qclt_minus_iff in Hneg.
      replace (1 - proba_slow slf + - 1)%Qc with (0 + - proba_slow slf)%Qc by ring.
      exact Hneg.
    - destruct (Qclt_le_dec 1 (proba_slow slf)) as [Hbig|Hsmall].
      + left. apply Qclt_minus_iff. apply Qclt_minus_iff in Hbig.
        replace (0 + - (1 - proba_slow slf))%Qc with (proba_slow slf + - 1)%Qc by ring.
        exact Hbig.
      + exfalso. apply Hn. split; assumption. }
  destruct H as [H|H].
  - rewrite (bool_decide_eq_true_2 _ H). reflexivity.
  - rewrite (bool_decide_eq_true_2 _ H). rewrite orb_true_r. reflexivity.
Qed.

Lemma body_invalid (guard : bool) (w : World) (ix : nat) :
  ~ valid_proba (self w) -> body guard ix w = Raise ValueError.
Proof.
  intros Hn.
  destruct guard; unfold body, simulation_body, simulation_body_without_guard;
    rewrite bind_eval; unfold get_self at 1;
    rewrite bind_eval, binomial_invalid by done; reflexivity.
Qed.

Lemma iter_add_dt (n : nat) (d x : Qc) :
  Nat.iter n (fun y => (y + d)%Qc) x = (x + Qc_of_Z (Z.of_nat n) * d)%Qc.
Proof.
  induction n as [|n IH].
  - rewrite Nat2Z.inj_0, Z2Qc_inj_0. simpl. ring.
  - simpl Nat.iter. rewrite IH, Nat2Z.inj_succ, <- Z.add_1_r, Z2Qc_inj_add, Z2Qc_inj_1.
    ring.
Qed.

Lemma scenario_valid : valid_proba (self scenario_world).
Proof. split; intros H; vm_compute in H; discriminate. Qed.

(** * Scenarios *)

(** First scenario of the specification: nothing blocks, both cars advance by
    their velocity and accelerate to [min (1 + 1) vmax = 2]. *)
Example scenario_free_flow :
  cars_after (simulation scenario_world) = Ok [mkCar 2 2; mkCar 7 2].
Proof. vm_compute. reflexivity. Qed.

(** Second scenario: the free-flow position 4 of the trailing car is within 3
    cells of the leader at 3, so it is clamped to [3 - 1 = 2]. *)
Example scenario_clamp :
  cars_after (simulation close_world) = Ok [mkCar 2 2; mkCar 4 2].
Proof. vm_compute. reflexivity. Qed.

(** The car of highest index is not checked against the car of index 0: it
    wraps from 9 to [(9 + 3) mod 10 = 2], the cell the first car occupies. *)
Example scenario_last_car_exempt :
  cars_after (simulation wrap_world) = Ok [mkCar 2 1; mkCar 2 3].
Proof. vm_compute. reflexivity. Qed.

(** The density of two cars in cells 4 and 7. *)
Example scenario_density :
  this <$> density_or_nil two_bumps_self two_bumps_cars
  = [0; 0; 1 # 4; 1 # 2; 1; 3 # 4; 3 # 4; 1; 1 # 2; 1 # 4; 0; 0]%Q.
Proof. vm_compute. reflexivity. Qed.

(** A position of [-1] marks the last cell of the road, a position of [L] is
    no index at all. *)
Example scenario_road_indices :
  this <$> road_or_nil two_bumps_self [mkCar (-1) 0]
  = [0; 0; 0; 0; 0; 0; 0; 0; 0; 0; 0; 1]%Q /\
  road two_bumps_self [mkCar 12 0] = Raise IndexError.
Proof. split; vm_compute; reflexivity. Qed.

(** * The claims *)

(** C1 (no-passing invariant).  In every tick of a road of positive length,
    whatever the state before it, the position written for a car that is not
    at the highest index never reaches or passes the position its successor
    had before the tick by fewer than 3 cells; the car at the highest index is
    the only one the rule skips: it always lands on its free-flow position
    [(position + velocity) mod L]. *)
Theorem no_passing_invariant (w : World) :
  0 < L (self w) ->
  valid_proba (self w) ->
  exists w',
    simulation w = Ok (tt, w') /\
    (forall ix car' succ,
        (ix + 1 < length (cars w))%nat ->
        cars w' !! ix = Some car' ->
        cars w !! (ix + 1)%nat = Some succ ->
        ~ passes (position car') (position succ)) /\
    (forall car car',
        cars w !! (length (cars w) - 1)%nat = Some car ->
        cars w' !! (length (cars w) - 1)%nat = Some car' ->
        position car' = (position car + velocity car) mod L (self w)).
Proof.
  intros HL Hv. eexists. split; [apply (simulation_eval true w Hv)|].
  cbn [cars]. split.
  - intros ix car' succ Hlt Hix' Hsucc.
    destruct (lookup_lt_is_Some_2 (cars w) ix) as [car Hix]; [lia|].
    rewrite (rows_after_lookup _ _ _ _ _ _ _ _ car Hix) in Hix'.
    injection Hix' as <-. rewrite row_after_position by done.
    rewrite successor_not_last by lia.
    unfold position_at. rewrite Hsucc. cbn [from_option].
    apply committed_no_passing. lia.
  - intros car car' Hix Hix'.
    rewrite (rows_after_lookup _ _ _ _ _ _ _ _ car Hix) in Hix'.
    injection Hix' as <-. rewrite row_after_position by done.
    rewrite committed_free_flow. unfold np_mod.
    destruct (Z.eqb_spec (L (self w)) 0); [lia|reflexivity].
Qed.

Lemma no_passing_invariant_witness :
  0 < L (self scenario_world) /\
  valid_proba (self scenario_world) /\
  exists w',
    simulation scenario_world = Ok (tt, w') /\
    (forall ix car' succ,
        (ix + 1 < length (cars scenario_world))%nat ->
        cars w' !! ix = Some car' ->
        cars scenario_world !! (ix + 1)%nat = Some succ ->
        ~ passes (position car') (position succ)) /\
    (forall car car',
        cars scenario_world !! (length (cars scenario_world) - 1)%nat = Some car ->
        cars w' !! (length (cars scenario_world) - 1)%nat = Some car' ->
        position car' = (position car + velocity car) mod L (self scenario_world)).
Proof.
  split; [reflexivity|]. split; [exact scenario_valid|].
  apply (no_passing_invariant scenario_world); [reflexivity | exact scenario_valid].
Defined.

(** C3 (velocity-update rule).  For a car processed by the loop body, let
    [p] be the value drawn by [np.random.binomial] and [next_position] the
    position committed for it.  [p] is 0 or 1; if [next_position] is below the
    old position the velocity is left as it was, and otherwise, with
    [advance = next_position - old position], the new velocity is
    [p * min (advance + 1) vmax + (1 - p) * max (advance - 1) 0]. *)
Theorem velocity_update_rule (w : World) (ix : nat) (car : Car) :
  valid_proba (self w) ->
  cars w !! ix = Some car ->
  exists p w_p next_position w' car',
    np_random_binomial_1 (1 - proba_slow (self w))%Qc w = Ok (p, w_p) /\
    determine_next_position ix w_p = Ok (next_position, w_p) /\
    simulation_body ix w = Ok (tt, w') /\
    cars w' !! ix = Some car' /\
    (p = 0 \/ p = 1) /\
    (next_position < position car -> velocity car' = velocity car) /\
    (position car <= next_position ->
     velocity car'
     = p * Z.min (next_position - position car + 1) (vmax (self w))
       + (1 - p) * Z.max (next_position - position car - 1) 0).
Proof.
  intros Hv Hix.
  assert (Hlt : (ix < length (cars w))%nat) by (eapply lookup_lt_Some; eauto).
  eexists _, _, _, _, _.
  split; [apply (binomial_valid (self w) w Hv)|].
  split; [apply (determine_eval _ ix car); exact Hix|].
  split; [apply (body_eval true w ix car Hv Hix)|].
  cbn [cars self]. split; [apply list_lookup_insert_eq; exact Hlt|].
  split.
  { unfold go_signal. destruct (bool_decide _); [right|left]; reflexivity. }
  unfold row_after, new_velocity. cbn [velocity]. split; intros Hcmp.
  - destruct (Z.ltb_spec
      (committed (L (self w)) (length (cars w)) ix car
         (position_at (cars w) (successor (length (cars w)) ix))) (position car));
      [reflexivity | lia].
  - destruct (Z.ltb_spec
      (committed (L (self w)) (length (cars w)) ix car
         (position_at (cars w) (successor (length (cars w)) ix))) (position car));
      [lia | ring].
Qed.

Lemma velocity_update_rule_witness :
  valid_proba (self scenario_world) /\
  cars scenario_world !! 0%nat = Some (mkCar 1 1) /\
  exists p w_p next_position w' car',
    np_random_binomial_1 (1 - proba_slow (self scenario_world))%Qc scenario_world
    = Ok (p, w_p) /\
    determine_next_position 0 w_p = Ok (next_position, w_p) /\
    simulation_body 0 scenario_world = Ok (tt, w') /\
    cars w' !! 0%nat = Some car' /\
    (p = 0 \/ p = 1) /\
    (next_position < position (mkCar 1 1) -> velocity car' = velocity (mkCar 1 1)) /\
    (position (mkCar 1 1) <= next_position ->
     velocity car'
     = p * Z.min (next_position - position (mkCar 1 1) + 1) (vmax (self scenario_world))
       + (1 - p) * Z.max (next_position - position (mkCar 1 1) - 1) 0).
Proof.
  split; [exact scenario_valid|]. split; [reflexivity|].
  apply (velocity_update_rule scenario_world 0 (mkCar 1 1));
    [exact scenario_valid | reflexivity].
Defined.

(** C8 (the wrap guard is dead code).  On a road of positive length, the
    position committed for a car is below [L] (hence not above it) whenever
    the loop body reaches the guard of lines 96-97, whatever the state; so the
    reset to 0 never runs, and [__simulation] computes exactly what it would
    compute with the guard deleted. *)
Theorem wrap_guard_is_dead_code (w : World) :
  0 < L (self w) ->
  (forall ix car,
      cars w !! ix = Some car ->
      exists next_position,
        determine_next_position ix w = Ok (next_position, w) /\
        next_position < L (self w) /\
        (L (self w) <? next_position) = false) /\
  simulation w = simulation_without_guard w.
Proof.
  intros HL. split.
  - intros ix car Hix. eexists. split; [apply (determine_eval _ ix car Hix)|].
    pose proof (committed_lt (L (self w)) (length (cars w)) ix car
                  (position_at (cars w) (successor (length (cars w)) ix)) HL) as Hlt.
    split; [exact Hlt|]. apply Z.ltb_ge. lia.
  - destruct (decide (valid_proba (self w))) as [Hv|Hn].
    + rewrite (simulation_eval true w Hv), (simulation_eval false w Hv).
      f_equal. f_equal. f_equal. apply list_eq; intros i.
      unfold rows_after. rewrite !list_lookup_imap.
      destruct (cars w !! i); [|reflexivity]. cbn [fmap option_fmap option_map].
      destruct (bool_decide _); [|reflexivity].
      rewrite row_after_guard_dead by done. reflexivity.
    + unfold simulation, simulation_without_guard. rewrite !bind_eval.
      unfold len_cars. destruct (length (cars w)) as [|n]; [reflexivity|].
      cbn [seq for_each]. rewrite !bind_eval.
      change simulation_body with (body true).
      change simulation_body_without_guard with (body false).
      rewrite (body_invalid true w 0 Hn), (body_invalid false w 0 Hn). reflexivity.
Qed.

Lemma wrap_guard_is_dead_code_witness :
  0 < L (self scenario_world) /\
  (forall ix car,
      cars scenario_world !! ix = Some car ->
      exists next_position,
        determine_next_position ix scenario_world = Ok (next_position, scenario_world) /\
        next_position < L (self scenario_world) /\
        (L (self scenario_world) <? next_position) = false) /\
  simulation scenario_world = simulation_without_guard scenario_world.
Proof.
  split; [reflexivity|]. apply (wrap_guard_is_dead_code scenario_world). reflexivity.
Defined.

Lemma for_each_float_eval (xs : list nat) :
  forall w c,
    match for_each simulation_body xs w with
    | Ok (_, w') =>
        for_each_float xs w c = Ok (w', Nat.iter (length xs) iadd_t_float c)
    | Raise e => for_each_float xs w c = Raise e
    end.
Proof.
  induction xs as [|ix xs IH]; intros w c; [reflexivity|].
  cbn [for_each for_each_float length]. rewrite bind_eval.
  destruct (simulation_body ix w) as [[[] w1]|e]; [|reflexivity].
  specialize (IH w1 (iadd_t_float c)).
  destruct (for_each simulation_body xs w1) as [[[] w2]|e]; [|exact IH].
  rewrite IH, Nat.iter_succ_r. reflexivity.
Qed.

Lemma iter_iadd_t_float (n : nat) (c : FloatClock) :
  ft (Nat.iter n iadd_t_float c) = Nat.iter n (fun x => (x + fdt c)%float) (ft c) /\
  fdt (Nat.iter n iadd_t_float c) = fdt c.
Proof.
  induction n as [|n [IHt IHd]]; [split; reflexivity|].
  simpl Nat.iter. unfold iadd_t_float at 1 3. cbn [ft fdt].
  rewrite IHt, IHd. split; reflexivity.
Qed.

(** C9, as the code has it (clock accounting).  One call of [__simulation]
    on [nb_cars] cars executes [self.t += self.dt] once per car and not once
    per call: the double clock after the call is the clock before it with
    [dt] added [nb_cars] times, one rounded addition after the other.  In
    exact arithmetic these additions amount to [t + nb_cars * dt]. *)
Theorem clock_ticks_once_per_car (w : World) (c : FloatClock) :
  valid_proba (self w) ->
  Z.of_nat (length (cars w)) = nb_cars (self w) ->
  exists w' c',
    simulation w = Ok (tt, w') /\
    simulation_float w c = Ok (w', c') /\
    ft c' = Nat.iter (Z.to_nat (nb_cars (self w))) (fun x => (x + fdt c)%float) (ft c) /\
    fdt c' = fdt c /\
    t (self w')
    = Nat.iter (Z.to_nat (nb_cars (self w))) (fun x => (x + dt (self w))%Qc) (t (self w)) /\
    t (self w') = (t (self w) + Qc_of_Z (nb_cars (self w)) * dt (self w))%Qc.
Proof.
  intros Hv Hn.
  pose proof (simulation_eval true w Hv) as Hsim. cbv iota in Hsim.
  pose proof (for_each_float_eval (seq 0 (length (cars w))) w c) as Hf.
  assert (Hloop : for_each simulation_body (seq 0 (length (cars w))) w = simulation w)
    by reflexivity.
  rewrite Hloop, Hsim, length_seq in Hf.
  destruct (iter_iadd_t_float (length (cars w)) c) as [Ht Hd].
  eexists _, _. split; [exact Hsim|]. split; [exact Hf|].
  rewrite <- Hn, Nat2Z.id. split; [exact Ht|]. split; [exact Hd|].
  cbn [self set_t t]. split; [reflexivity | apply iter_add_dt].
Qed.

Lemma clock_ticks_once_per_car_witness :
  valid_proba (self scenario_world) /\
  Z.of_nat (length (cars scenario_world)) = nb_cars (self scenario_world) /\
  exists w' c',
    simulation scenario_world = Ok (tt, w') /\
    simulation_float scenario_world default_clock = Ok (w', c') /\
    ft c'
    = Nat.iter (Z.to_nat (nb_cars (self scenario_world)))
        (fun x => (x + fdt default_clock)%float) (ft default_clock) /\
    fdt c' = fdt default_clock /\
    t (self w')
    = Nat.iter (Z.to_nat (nb_cars (self scenario_world)))
        (fun x => (x + dt (self scenario_world))%Qc) (t (self scenario_world)) /\
    t (self w')
    = (t (self scenario_world)
       + Qc_of_Z (nb_cars (self scenario_world)) * dt (self scenario_world))%Qc.
Proof.
  split; [exact scenario_valid|]. split; [reflexivity|].
  apply (clock_ticks_once_per_car scenario_world default_clock);
    [exact scenario_valid | reflexivity].
Defined.

(** C9 as stated fails on the doubles the code computes with.  With the
    class defaults (15 cars, [dt = 0.1]) and the clock at 0, one call leaves
    the clock at [0x1.8000000000001p+0] (1.5000000000000002), while
    [t + nb_cars * dt] is 1.5: the increase is not exactly [nb_cars * dt]. *)
Lemma clock_exactly_nb_cars_dt_counterexample :
  valid_proba (self default_world) /\
  Z.of_nat (length (cars default_world)) = nb_cars (self default_world) /\
  nb_cars (self default_world) = 15 /\
  float_clock_after default_world default_clock = Some 0x1.8000000000001p+0%float /\
  (ft default_clock + 15 * fdt default_clock)%float = 0x1.8p+0%float /\
  (0x1.8000000000001p+0 - ft default_clock)%float <> (15 * fdt default_clock)%float /\
  0x1.8000000000001p+0%float <> (ft default_clock + 15 * fdt default_clock)%float.
Proof.
  split; [split; intros H; vm_compute in H; discriminate|].
  split; [reflexivity|]. split; [reflexivity|].
  split; [vm_compute; reflexivity|]. split; [vm_compute; reflexivity|].
  split; intros H;
    apply (f_equal (fun x => PrimFloat.eqb x 0x1.8p+0%float)) in H;
    vm_compute in H; discriminate H.
Qed.

(** C10 (frame).  A call of [__simulation] leaves the attributes [L],
    [nb_cars], [vmax], [tmax], [dt] and [proba_slow] as they were and keeps
    the number of rows of the car array; only the cells of the array and the
    clock [t] are written. *)
Theorem simulation_frame (w : World) :
  valid_proba (self w) ->
  exists w',
    simulation w = Ok (tt, w') /\
    L (self w') = L (self w) /\
    nb_cars (self w') = nb_cars (self w) /\
    vmax (self w') = vmax (self w) /\
    tmax (self w') = tmax (self w) /\
    dt (self w') = dt (self w) /\
    proba_slow (self w') = proba_slow (self w) /\
    length (cars w') = length (cars w).
Proof.
  intros Hv. eexists. split; [apply (simulation_eval true w Hv)|].
  cbn [self cars set_t L nb_cars vmax tmax dt proba_slow].
  rewrite rows_after_length. repeat split; reflexivity.
Qed.

Lemma simulation_frame_witness :
  valid_proba (self scenario_world) /\
  exists w',
    simulation scenario_world = Ok (tt, w') /\
    L (self w') = L (self scenario_world) /\
    nb_cars (self w') = nb_cars (self scenario_world) /\
    vmax (self w') = vmax (self scenario_world) /\
    tmax (self w') = tmax (self scenario_world) /\
    dt (self w') = dt (self scenario_world) /\
    proba_slow (self w') = proba_slow (self scenario_world) /\
    length (cars w') = length (cars scenario_world).
Proof.
  split; [exact scenario_valid|].
  apply (simulation_frame scenario_world). exact scenario_valid.
Defined.

(** ** Car creation *)

Lemma choose_eval (a : list Z) (n : nat) :
  forall w,
    choose a n w
    = Ok ((fun k => pick a (stream (np_random w) (consumed (np_random w) + k)%nat))
            <$> seq 0 n,
          mkWorld (self w) (cars w) (advance (np_random w) n)).
Proof.
  induction n as [|n IH]; intros w.
  - cbn [choose seq fmap list_fmap]. unfold mret, Py_ret.
    destruct w as [s cs [str c]]; reflexivity.
  - cbn [choose]. rewrite bind_eval. unfold next_raw at 1.
    rewrite bind_eval, IH. cbn [self cars np_random stream consumed advance].
    unfold mret, Py_ret. f_equal. f_equal.
    + cbn [seq fmap list_fmap]. rewrite Nat.add_0_r. f_equal.
      rewrite <- fmap_S_seq, <- list_fmap_compose.
      apply list_fmap_ext. intros i k _. cbn. f_equal. f_equal. lia.
    + unfold advance. cbn [stream consumed]. f_equal. f_equal. lia.
Qed.

Lemma pick_123 (r : N) : pick [1; 2; 3] r = 1 \/ pick [1; 2; 3] r = 2 \/ pick [1; 2; 3] r = 3.
Proof.
  unfold pick. cbn [length].
  assert (H : (r mod N.of_nat 3 < 3)%N) by (apply N.mod_lt; discriminate).
  destruct (N.to_nat (r mod N.of_nat 3)) as [|[|[|k]]] eqn:Hk; cbn; [tauto | tauto | tauto |].
  exfalso. lia.
Qed.

Lemma py_range_odd (n : Z) :
  0 <= n -> py_range 1 (n * 2) 2 = (fun k => 2 * Z.of_nat k + 1) <$> seq 0 (Z.to_nat n).
Proof.
  intros Hn. unfold py_range.
  replace ((n * 2 - 1 + 2 - 1) / 2) with n by (rewrite <- (Z.div_mul n 2) at 1 by lia; f_equal; lia).
  apply list_fmap_ext. intros i k _. lia.
Qed.

Lemma create_cars_eval (w : World) :
  0 <= nb_cars (self w) ->
  create_cars w
  = Ok (zip_with mkCar
          ((fun k => 2 * Z.of_nat k + 1) <$> seq 0 (Z.to_nat (nb_cars (self w))))
          ((fun k => pick [1; 2; 3] (stream (np_random w) (consumed (np_random w) + k)%nat))
             <$> seq 0 (Z.to_nat (nb_cars (self w)))),
        mkWorld (self w) (cars w) (advance (np_random w) (Z.to_nat (nb_cars (self w))))).
Proof.
  intros Hn. unfold create_cars. rewrite bind_eval. unfold get_self at 1.
  rewrite bind_eval. unfold np_random_choice.
  destruct (Z.ltb_spec (nb_cars (self w)) 0); [lia|].
  rewrite bool_decide_eq_false_2 by discriminate. cbn [orb].
  rewrite choose_eval. unfold mret, Py_ret. rewrite py_range_odd by done. reflexivity.
Qed.



(** ** Occupancy and density *)

Lemma outcome_bind_Ok {A B : Type} (m : Outcome A) (f : A -> Outcome B) (b : B) :
  m ≫= f = Ok b -> exists a, m = Ok a /\ f a = Ok b.
Proof. destruct m as [a|e]; [eauto | discriminate]. Qed.

Lemma np_index_Ok (n i : Z) (k : nat) :
  np_index n i = Ok k ->
  (0 <= i < n /\ k = Z.to_nat i) \/ (- n <= i < 0 /\ k = Z.to_nat (n + i)).
Proof.
  unfold np_index.
  destruct (Z.leb_spec 0 i), (Z.ltb_spec i n); cbn [andb];
    try (intros [= <-]; left; split; [lia|reflexivity]);
    destruct (Z.leb_spec (- n) i), (Z.ltb_spec i 0); cbn [andb];
    try discriminate; intros [= <-]; right; split; first [lia | reflexivity].
Qed.

Lemma np_index_nonneg (n i : Z) :
  0 <= i < n -> np_index n i = Ok (Z.to_nat i).
Proof.
  intros H. unfold np_index.
  destruct (Z.leb_spec 0 i), (Z.ltb_spec i n); cbn [andb]; first [reflexivity | lia].
Qed.

Lemma vec_get_Ok (v : list Qc) (k : Z) (x : Qc) :
  0 <= k -> vec_get v k = Ok x -> v !! Z.to_nat k = Some x.
Proof.
  intros Hk H. unfold vec_get in H.
  apply outcome_bind_Ok in H as (i & Hi & H).
  apply np_index_Ok in Hi as [[_ ->]|[? _]]; [|lia].
  destruct (v !! Z.to_nat k); [congruence | discriminate].
Qed.

Lemma vec_get_in_range (v : list Qc) (k : Z) :
  0 <= k < Z.of_nat (length v) -> exists x, vec_get v k = Ok x.
Proof.
  intros Hk. unfold vec_get. rewrite np_index_nonneg by done.
  destruct (lookup_lt_is_Some_2 v (Z.to_nat k)) as [x Hx]; [lia|].
  exists x. cbn. rewrite Hx. reflexivity.
Qed.

Lemma vec_set_Ok (v : list Qc) (k : Z) (x : Qc) (v' : list Qc) :
  vec_set v k x = Ok v' ->
  exists i, np_index (Z.of_nat (length v)) k = Ok i /\ v' = <[i := x]> v.
Proof.
  intros H. unfold vec_set in H. apply outcome_bind_Ok in H as (i & Hi & [= <-]).
  eauto.
Qed.

Lemma road_loop_spec (cs : list Car) :
  forall r r',
    road_loop r cs = Ok r' ->
    length r' = length r /\
    forall k, (k < length r)%nat ->
      (r' !! k = Some 1%Qc /\ occupied (Z.of_nat (length r)) cs k) \/
      (r' !! k = r !! k /\ ~ occupied (Z.of_nat (length r)) cs k).
Proof.
  induction cs as [|car cs IH]; intros r r' H.
  - injection H as <-. split; [reflexivity|]. intros k _. right.
    split; [reflexivity|]. intros (c & Hc & _). by apply elem_of_nil in Hc.
  - cbn [road_loop] in H. apply outcome_bind_Ok in H as (r1 & H1 & H).
    apply vec_set_Ok in H1 as (i & Hi & ->).
    destruct (IH _ _ H) as [Hlen Hrows]. rewrite length_insert in Hlen, Hrows.
    split; [exact Hlen|]. intros k Hk.
    destruct (Hrows k Hk) as [[Hone Hocc]|[Hsame Hfree]].
    + left. split; [exact Hone|]. destruct Hocc as (c & Hc & Hci).
      exists c. split; [by apply list_elem_of_further | exact Hci].
    + destruct (decide (i = k)) as [->|Hne].
      * left. rewrite list_lookup_insert_eq in Hsame by done. split; [exact Hsame|].
        exists car. split; [apply list_elem_of_here | exact Hi].
      * right. rewrite list_lookup_insert_ne in Hsame by done. split; [exact Hsame|].
        intros (c & Hc & Hci). apply elem_of_cons in Hc as [->|Hc].
        -- congruence.
        -- apply Hfree. exists c. split; assumption.
Qed.

Lemma np_zeros_Ok (n : Z) (v : list Qc) :
  np_zeros n = Ok v -> 0 <= n /\ v = replicate (Z.to_nat n) 0%Qc.
Proof.
  unfold np_zeros. destruct (Z.ltb_spec n 0); [discriminate|].
  intros [= <-]. split; [lia|reflexivity].
Qed.

Lemma road_spec (slf : Departementale) (cs : list Car) (r : list Qc) :
  road slf cs = Ok r ->
  0 <= L slf /\
  length r = Z.to_nat (L slf) /\
  forall k, Z.of_nat k < L slf ->
    (r !! k = Some 1%Qc /\ occupied (L slf) cs k) \/
    (r !! k = Some 0%Qc /\ ~ occupied (L slf) cs k).
Proof.
  intros H. unfold road in H. apply outcome_bind_Ok in H as (z & Hz & H).
  apply np_zeros_Ok in Hz as [HL ->].
  apply road_loop_spec in H as [Hlen Hrows].
  rewrite length_replicate in Hlen, Hrows. rewrite Z2Nat.id in Hrows by done.
  split; [exact HL|]. split; [exact Hlen|]. intros k Hk.
  destruct (Hrows k) as [Hocc|[Hsame Hfree]]; [lia | left; exact Hocc | right].
  split; [|exact Hfree]. rewrite Hsame. apply lookup_replicate_2. lia.
Qed.

Lemma density_loop_spec (r : list Qc) (ks : list Z) :
  forall tr d,
    Forall (fun k => 0 <= k) ks ->
    density_loop r tr ks = Ok d ->
    length d = length tr /\
    forall j, (j < length tr)%nat ->
      ((Z.of_nat j ∈ ks) /\ exists x, smooth r (Z.of_nat j) = Ok x /\ d !! j = Some x) \/
      ((Z.of_nat j ∉ ks) /\ d !! j = tr !! j).
Proof.
  induction ks as [|k ks IH]; intros tr d Hks H.
  - injection H as <-. split; [reflexivity|]. intros j _. right.
    split; [by intros ?%elem_of_nil | reflexivity].
  - cbn [density_loop] in H. apply outcome_bind_Ok in H as (x & Hx & H).
    apply outcome_bind_Ok in H as (tr1 & Htr1 & H).
    inversion Hks as [|k0 ks0 Hk Hks']; subst k0 ks0.
    apply vec_set_Ok in Htr1 as (i & Hi & ->).
    apply np_index_Ok in Hi as [[Hr ->]|[? _]]; [|lia].
    destruct (IH _ _ Hks' H) as [Hlen Hrows]. rewrite length_insert in Hlen, Hrows.
    split; [exact Hlen|]. intros j Hj.
    destruct (Hrows j Hj) as [(Hin & y & Hy & Hd)|[Hout Hd]].
    + left. split; [by apply list_elem_of_further|]. eauto.
    + destruct (decide (Z.to_nat k = j)) as [<-|Hne].
      * left. rewrite Z2Nat.id by done. split; [apply list_elem_of_here|].
        exists x. split; [exact Hx|]. rewrite Hd. apply list_lookup_insert_eq. lia.
      * right. rewrite list_lookup_insert_ne in Hd by done. split; [|exact Hd].
        intros Hin. apply elem_of_cons in Hin as [Heq|Hin]; [|by apply Hout].
        apply Hne. rewrite <- Heq. apply Nat2Z.id.
Qed.

Lemma elem_of_py_range_1 (start stop k : Z) :
  k ∈ py_range start stop 1 <-> start <= k < stop.
Proof.
  unfold py_range. rewrite list_elem_of_fmap. split.
  - intros (i & -> & Hi). apply elem_of_seq in Hi.
    replace ((stop - start + 1 - 1) / 1) with (stop - start) in Hi
      by (rewrite Z.div_1_r; lia).
    lia.
  - intros Hk. exists (Z.to_nat (k - start)). split; [lia|].
    apply elem_of_seq. rewrite Z.div_1_r. lia.
Qed.

Lemma smooth_Ok (r : list Qc) (k : Z) (x : Qc) :
  2 <= k ->
  smooth r k = Ok x ->
  exists a b c d e,
    r !! Z.to_nat (k - 2) = Some a /\ r !! Z.to_nat (k - 1) = Some b /\
    r !! Z.to_nat k = Some c /\ r !! Z.to_nat (k + 1) = Some d /\
    r !! Z.to_nat (k + 2) = Some e /\
    x = (a / four + b / 2 + c + d / 2 + e / four)%Qc.
Proof.
  intros Hk H. unfold smooth in H.
  apply outcome_bind_Ok in H as (a & Ha & H). apply outcome_bind_Ok in H as (b & Hb & H).
  apply outcome_bind_Ok in H as (c & Hc & H). apply outcome_bind_Ok in H as (d & Hd & H).
  apply outcome_bind_Ok in H as (e & He & H). injection H as <-.
  apply vec_get_Ok in Ha, Hb, Hc, Hd, He; try lia.
  exists a, b, c, d, e. repeat split; assumption.
Qed.

Lemma traffic_density_spec (slf : Departementale) (cs : list Car) (d : list Qc) :
  traffic_density slf cs = Ok d ->
  exists r,
    road slf cs = Ok r /\
    length d = Z.to_nat (L slf) /\
    forall j, Z.of_nat j < L slf ->
      (boundary (L slf) j /\ d !! j = Some 0%Qc) \/
      (~ boundary (L slf) j /\
       exists a b c e f,
         r !! (j - 2)%nat = Some a /\ r !! (j - 1)%nat = Some b /\
         r !! j = Some c /\ r !! (j + 1)%nat = Some e /\ r !! (j + 2)%nat = Some f /\
         d !! j = Some (a / four + b / 2 + c + e / 2 + f / four)%Qc).
Proof.
  intros H. unfold traffic_density in H.
  apply outcome_bind_Ok in H as (r & Hr & H). exists r. split; [exact Hr|].
  apply outcome_bind_Ok in H as (z & Hz & H). apply np_zeros_Ok in Hz as [HL ->].
  apply density_loop_spec in H as [Hlen Hrows].
  2:{ apply list.Forall_forall. intros k Hk. apply elem_of_py_range_1 in Hk. lia. }
  rewrite length_replicate in Hlen, Hrows. split; [exact Hlen|]. intros j Hj.
  destruct (Hrows j) as [(Hin & x & Hx & Hd)|[Hout Hd]]; [lia | right | left].
  - apply elem_of_py_range_1 in Hin. split; [unfold boundary; lia|].
    apply smooth_Ok in Hx as (a & b & c & e & f & Ha & Hb & Hc & He & Hf & ->); [|lia].
    exists a, b, c, e, f.
    replace (Z.to_nat (Z.of_nat j - 2)) with (j - 2)%nat in Ha by lia.
    replace (Z.to_nat (Z.of_nat j - 1)) with (j - 1)%nat in Hb by lia.
    rewrite Nat2Z.id in Hc.
    replace (Z.to_nat (Z.of_nat j + 1)) with (j + 1)%nat in He by lia.
    replace (Z.to_nat (Z.of_nat j + 2)) with (j + 2)%nat in Hf by lia.
    repeat split; assumption.
  - rewrite elem_of_py_range_1 in Hout. split; [unfold boundary; lia|].
    rewrite Hd. apply lookup_replicate_2. lia.
Qed.

Lemma road_loop_total (cs : list Car) :
  forall r,
    (forall car, car ∈ cs ->
       - Z.of_nat (length r) <= position car < Z.of_nat (length r)) ->
    exists r', road_loop r cs = Ok r'.
Proof.
  induction cs as [|car cs IH]; intros r Hpos; [eexists; reflexivity|].
  cbn [road_loop]. unfold vec_set.
  assert (Hi : exists i, np_index (Z.of_nat (length r)) (position car) = Ok i).
  { pose proof (Hpos car (list_elem_of_here _ _)) as Hc. unfold np_index.
    destruct (Z.leb_spec 0 (position car)), (Z.ltb_spec (position car) (Z.of_nat (length r)));
      cbn [andb]; eauto; try lia.
    destruct (Z.leb_spec (- Z.of_nat (length r)) (position car)), (Z.ltb_spec (position car) 0);
      cbn [andb]; eauto; lia. }
  destruct Hi as [i ->]. cbn.
  apply IH. intros c Hc. rewrite length_insert. apply Hpos. by apply list_elem_of_further.
Qed.

Lemma density_loop_total (r : list Qc) (ks : list Z) :
  forall tr,
    length tr = length r ->
    Forall (fun k => 2 <= k < Z.of_nat (length r) - 2) ks ->
    exists d, density_loop r tr ks = Ok d.
Proof.
  induction ks as [|k ks IH]; intros tr Hlen Hks; [eexists; reflexivity|].
  inversion Hks as [|k0 ks0 Hk Hks']; subst k0 ks0.
  cbn [density_loop]. unfold smooth.
  destruct (vec_get_in_range r (k - 2)) as [a ->]; [lia|].
  destruct (vec_get_in_range r (k - 1)) as [b ->]; [lia|].
  destruct (vec_get_in_range r k) as [c ->]; [lia|].
  destruct (vec_get_in_range r (k + 1)) as [e ->]; [lia|].
  destruct (vec_get_in_range r (k + 2)) as [f ->]; [lia|].
  cbn. unfold vec_set. rewrite np_index_nonneg by lia. cbn.
  apply IH; [rewrite length_insert; exact Hlen | exact Hks'].
Qed.

(** [__traffic_density] returns a vector exactly when every position is a
    valid index of the road. *)
Lemma traffic_density_total (slf : Departementale) (cs : list Car) :
  0 <= L slf ->
  (forall car, car ∈ cs -> - L slf <= position car < L slf) ->
  exists d, traffic_density slf cs = Ok d.
Proof.
  intros HL Hpos. unfold traffic_density, road, np_zeros.
  destruct (Z.ltb_spec (L slf) 0); [lia|]. cbn.
  destruct (road_loop_total cs (replicate (Z.to_nat (L slf)) 0%Qc)) as [r Hr].
  { intros car Hc. rewrite length_replicate, Z2Nat.id by done. by apply Hpos. }
  rewrite Hr. cbn.
  apply road_loop_spec in Hr as [Hlen _]. rewrite length_replicate in Hlen.
  apply density_loop_total.
  - rewrite length_replicate. congruence.
  - apply list.Forall_forall. intros k Hk. apply elem_of_py_range_1 in Hk. lia.
Qed.

(** C5 (density boundary).  On a road of at least 4 cells, every density
    vector that [__traffic_density] returns has [L] entries and is exactly 0
    at the indices 0, 1, [L - 2] and [L - 1]; every non-zero entry lies at an
    index between 2 and [L - 3]. *)
Theorem density_boundary_is_zero (slf : Departementale) (cs : list Car) (d : list Qc) :
  4 <= L slf ->
  traffic_density slf cs = Ok d ->
  Z.of_nat (length d) = L slf /\
  d !! 0%nat = Some 0%Qc /\
  d !! 1%nat = Some 0%Qc /\
  d !! Z.to_nat (L slf - 2) = Some 0%Qc /\
  d !! Z.to_nat (L slf - 1) = Some 0%Qc /\
  (forall j x, d !! j = Some x -> x <> 0%Qc -> 2 <= Z.of_nat j <= L slf - 3).
Proof.
  intros HL H. apply traffic_density_spec in H as (r & _ & Hlen & Hrows).
  assert (Hb : forall j, Z.of_nat j < L slf -> boundary (L slf) j -> d !! j = Some 0%Qc).
  { intros j Hj Hbd. destruct (Hrows j Hj) as [[_ Hz]|[Hnb _]]; [exact Hz | contradiction]. }
  split; [lia|]. repeat split.
  - apply Hb; unfold boundary; lia.
  - apply Hb; unfold boundary; lia.
  - apply Hb; unfold boundary; lia.
  - apply Hb; unfold boundary; lia.
  - destruct (Hrows j) as [[_ Hz]|[Hnb _]].
    + apply lookup_lt_Some in H. lia.
    + congruence.
    + unfold boundary in Hnb. lia.
  - destruct (Hrows j) as [[_ Hz]|[Hnb _]].
    + apply lookup_lt_Some in H. lia.
    + congruence.
    + unfold boundary in Hnb. lia.
Qed.

Lemma density_boundary_is_zero_witness :
  4 <= L two_bumps_self /\
  traffic_density two_bumps_self two_bumps_cars
  = Ok (density_or_nil two_bumps_self two_bumps_cars) /\
  Z.of_nat (length (density_or_nil two_bumps_self two_bumps_cars)) = L two_bumps_self /\
  density_or_nil two_bumps_self two_bumps_cars !! 0%nat = Some 0%Qc /\
  density_or_nil two_bumps_self two_bumps_cars !! 1%nat = Some 0%Qc /\
  density_or_nil two_bumps_self two_bumps_cars !! Z.to_nat (L two_bumps_self - 2)
  = Some 0%Qc /\
  density_or_nil two_bumps_self two_bumps_cars !! Z.to_nat (L two_bumps_self - 1)
  = Some 0%Qc /\
  (forall j x,
      density_or_nil two_bumps_self two_bumps_cars !! j = Some x ->
      x <> 0%Qc -> 2 <= Z.of_nat j <= L two_bumps_self - 3).
Proof.
  split; [discriminate|]. split; [vm_compute; reflexivity|].
  apply (density_boundary_is_zero two_bumps_self two_bumps_cars);
    [discriminate | vm_compute; reflexivity].
Defined.

Lemma cell_value (slf : Departementale) (cs : list Car) (r : list Qc)
    (c : nat) (radius : Z) (i : nat) (x : Qc) :
  road slf cs = Ok r ->
  occupied (L slf) cs c ->
  isolated (L slf) cs c radius ->
  r !! i = Some x ->
  apart i c <= radius ->
  x = if decide (i = c) then 1%Qc else 0%Qc.
Proof.
  intros Hr Hc Hiso Hi Hnear.
  apply road_spec in Hr as (HL & Hlen & Hrows).
  assert (Hlt : Z.of_nat i < L slf) by (apply lookup_lt_Some in Hi; lia).
  destruct (Hrows i Hlt) as [[Hone Hocc]|[Hzero Hfree]].
  - destruct (Hiso i Hocc) as [->|Hfar]; [|lia].
    rewrite decide_True by reflexivity. congruence.
  - destruct (decide (i = c)) as [->|_]; [contradiction | congruence].
Qed.

Lemma cell_free (slf : Departementale) (cs : list Car) (r : list Qc)
    (j i : nat) (x : Qc) :
  road slf cs = Ok r ->
  (forall k, occupied (L slf) cs k -> 2 < apart j k) ->
  r !! i = Some x ->
  apart j i <= 2 ->
  x = 0%Qc.
Proof.
  intros Hr Hfar Hi Hnear.
  apply road_spec in Hr as (HL & Hlen & Hrows).
  assert (Hlt : Z.of_nat i < L slf) by (apply lookup_lt_Some in Hi; lia).
  destruct (Hrows i Hlt) as [[Hone Hocc]|[Hzero Hfree]]; [|congruence].
  specialize (Hfar i Hocc). lia.
Qed.

(** C4, as the code has it (density of an isolated car).  Let a car sit in
    cell [c].  The boundary indices 0, 1, [L - 2], [L - 1] of the density
    vector are 0 whatever the occupancy.  At any other index [j]: the density
    is 1 at [j = c] if no other car is within 2 cells of [c]; it is 1/2 one
    cell away from [c] if no other car is within 3 cells of [c]; it is 1/4 two
    cells away from [c] if no other car is within 4 cells of [c]; and it is 0
    wherever no car at all is within 2 cells of [j]. *)
Theorem isolated_car_density (slf : Departementale) (cs : list Car) (d : list Qc)
    (c : nat) :
  traffic_density slf cs = Ok d ->
  occupied (L slf) cs c ->
  forall j, Z.of_nat j < L slf ->
    (boundary (L slf) j -> d !! j = Some 0%Qc) /\
    (~ boundary (L slf) j ->
       (j = c -> isolated (L slf) cs c 2 -> d !! j = Some 1%Qc) /\
       (apart j c = 1 -> isolated (L slf) cs c 3 -> d !! j = Some half) /\
       (apart j c = 2 -> isolated (L slf) cs c 4 -> d !! j = Some quarter) /\
       ((forall k, occupied (L slf) cs k -> 2 < apart j k) -> d !! j = Some 0%Qc)).
Proof.
  intros Hd Hc j Hj.
  apply traffic_density_spec in Hd as (r & Hr & Hlen & Hrows).
  destruct (Hrows j Hj) as [[Hb Hz]|[Hnb (a & b & m & e & f & Ha & Hb & Hm & He & Hf & Hval)]].
  - split; [intros _; exact Hz | contradiction].
  - split; [contradiction|]. intros _. unfold boundary in Hnb. unfold apart in *.
    rewrite Hval. repeat split.
    + intros -> Hiso.
      rewrite (cell_value slf cs r c 2 _ a Hr Hc Hiso Ha) by (unfold apart; lia).
      rewrite (cell_value slf cs r c 2 _ b Hr Hc Hiso Hb) by (unfold apart; lia).
      rewrite (cell_value slf cs r c 2 _ m Hr Hc Hiso Hm) by (unfold apart; lia).
      rewrite (cell_value slf cs r c 2 _ e Hr Hc Hiso He) by (unfold apart; lia).
      rewrite (cell_value slf cs r c 2 _ f Hr Hc Hiso Hf) by (unfold apart; lia).
      repeat (destruct (decide _); try lia);
        f_equal; apply Qc_is_canon; reflexivity.
    + intros Hone Hiso.
      rewrite (cell_value slf cs r c 3 _ a Hr Hc Hiso Ha) by (unfold apart; lia).
      rewrite (cell_value slf cs r c 3 _ b Hr Hc Hiso Hb) by (unfold apart; lia).
      rewrite (cell_value slf cs r c 3 _ m Hr Hc Hiso Hm) by (unfold apart; lia).
      rewrite (cell_value slf cs r c 3 _ e Hr Hc Hiso He) by (unfold apart; lia).
      rewrite (cell_value slf cs r c 3 _ f Hr Hc Hiso Hf) by (unfold apart; lia).
      repeat (destruct (decide _); try lia);
        f_equal; apply Qc_is_canon; reflexivity.
    + intros Htwo Hiso.
      rewrite (cell_value slf cs r c 4 _ a Hr Hc Hiso Ha) by (unfold apart; lia).
      rewrite (cell_value slf cs r c 4 _ b Hr Hc Hiso Hb) by (unfold apart; lia).
      rewrite (cell_value slf cs r c 4 _ m Hr Hc Hiso Hm) by (unfold apart; lia).
      rewrite (cell_value slf cs r c 4 _ e Hr Hc Hiso He) by (unfold apart; lia).
      rewrite (cell_value slf cs r c 4 _ f Hr Hc Hiso Hf) by (unfold apart; lia).
      repeat (destruct (decide _); try lia);
        f_equal; apply Qc_is_canon; reflexivity.
    + intros Hfar.
      rewrite (cell_free slf cs r j _ a Hr Hfar Ha) by (unfold apart; lia).
      rewrite (cell_free slf cs r j _ b Hr Hfar Hb) by (unfold apart; lia).
      rewrite (cell_free slf cs r j _ m Hr Hfar Hm) by (unfold apart; lia).
      rewrite (cell_free slf cs r j _ e Hr Hfar He) by (unfold apart; lia).
      rewrite (cell_free slf cs r j _ f Hr Hfar Hf) by (unfold apart; lia).
      f_equal; apply Qc_is_canon; reflexivity.
Qed.

Lemma isolated_car_density_witness :
  traffic_density two_bumps_self lone_car_cars
  = Ok (density_or_nil two_bumps_self lone_car_cars) /\
  occupied (L two_bumps_self) lone_car_cars 5 /\
  Z.of_nat 6 < L two_bumps_self /\
  (boundary (L two_bumps_self) 6 ->
   density_or_nil two_bumps_self lone_car_cars !! 6%nat = Some 0%Qc) /\
  (~ boundary (L two_bumps_self) 6 ->
     (6%nat = 5%nat -> isolated (L two_bumps_self) lone_car_cars 5 2 ->
      density_or_nil two_bumps_self lone_car_cars !! 6%nat = Some 1%Qc) /\
     (apart 6 5 = 1 -> isolated (L two_bumps_self) lone_car_cars 5 3 ->
      density_or_nil two_bumps_self lone_car_cars !! 6%nat = Some half) /\
     (apart 6 5 = 2 -> isolated (L two_bumps_self) lone_car_cars 5 4 ->
      density_or_nil two_bumps_self lone_car_cars !! 6%nat = Some quarter) /\
     ((forall k, occupied (L two_bumps_self) lone_car_cars k -> 2 < apart 6 k) ->
      density_or_nil two_bumps_self lone_car_cars !! 6%nat = Some 0%Qc)).
Proof.
  assert (Hocc : occupied (L two_bumps_self) lone_car_cars 5).
  { exists (mkCar 5 1). split; [apply list_elem_of_here | reflexivity]. }
  split; [vm_compute; reflexivity|]. split; [exact Hocc|]. split; [reflexivity|].
  apply (isolated_car_density two_bumps_self lone_car_cars
           (density_or_nil two_bumps_self lone_car_cars) 5);
    [vm_compute; reflexivity | exact Hocc | reflexivity].
Defined.

(** C4 as stated fails: on a road of 12 cells with cars in cells 4 and 7, the
    car in cell 4 has no other car within 2 cells, yet the density one cell
    away from it (index 5, not a boundary index) is 3/4 and not 1/2: the car
    in cell 7 contributes 1/4 there. *)
Lemma isolated_car_density_counterexample :
  traffic_density two_bumps_self two_bumps_cars
  = Ok (density_or_nil two_bumps_self two_bumps_cars) /\
  occupied (L two_bumps_self) two_bumps_cars 4 /\
  isolated (L two_bumps_self) two_bumps_cars 4 2 /\
  apart 5 4 = 1 /\
  ~ boundary (L two_bumps_self) 5 /\
  density_or_nil two_bumps_self two_bumps_cars !! 5%nat = Some three_quarters /\
  Some three_quarters <> Some half.
Proof.
  split; [vm_compute; reflexivity|].
  split; [exists (mkCar 4 1); split; [apply list_elem_of_here | reflexivity]|].
  split.
  { intros k (car & Hin & Hidx).
    apply elem_of_cons in Hin as [->|Hin].
    - left. vm_compute in Hidx. congruence.
    - apply list_elem_of_singleton in Hin as ->. right.
      vm_compute in Hidx. injection Hidx as <-. reflexivity. }
  split; [reflexivity|].
  split; [unfold boundary; cbn; lia|].
  split.
  - destruct (density_or_nil two_bumps_self two_bumps_cars !! 5%nat) as [x|] eqn:Hx;
      vm_compute in Hx; [|discriminate].
    injection Hx as <-. f_equal. apply Qc_is_canon. reflexivity.
  - intros H. injection H as H. discriminate H.
Qed.

(** ** Determinism *)

Lemma rows_after_same_draws (guard : bool) (Lz vm : Z) (q : Qc)
    (str1 str2 : nat -> N) (c1 c2 : nat) (cs : list Car) :
  (forall i, (i < length cs)%nat -> str1 (c1 + i)%nat = str2 (c2 + i)%nat) ->
  rows_after guard Lz vm q str1 c1 cs 0 (length cs)
  = rows_after guard Lz vm q str2 c2 cs 0 (length cs).
Proof.
  intros H. apply list_eq. intros i. unfold rows_after. rewrite !list_lookup_imap.
  destruct (cs !! i) as [car|] eqn:Hi; [|reflexivity]. cbn [fmap option_fmap option_map].
  apply lookup_lt_Some in Hi.
  rewrite !bool_decide_eq_true_2 by lia. rewrite Nat.sub_0_r, (H i Hi). reflexivity.
Qed.

(** One tick on two worlds with the same instance and cars, whose generators
    yield the same next draws, one per car: same exception, or same instance
    and cars afterwards, each generator one draw per car further. *)
Lemma simulation_same_draws (w1 w2 : World) :
  self w1 = self w2 ->
  cars w1 = cars w2 ->
  same_next_draws (length (cars w1)) (np_random w1) (np_random w2) ->
  match simulation w1, simulation w2 with
  | Ok (_, w1'), Ok (_, w2') =>
      self w1' = self w2' /\ cars w1' = cars w2' /\
      length (cars w1') = length (cars w1) /\
      (forall m, same_next_draws (length (cars w1) + m) (np_random w1) (np_random w2) ->
                 same_next_draws m (np_random w1') (np_random w2'))
  | Raise e1, Raise e2 => e1 = e2
  | _, _ => False
  end.
Proof.
  intros Hs Hc Hd. destruct (decide (valid_proba (self w1))) as [Hv|Hn].
  - assert (Hv2 : valid_proba (self w2)) by (rewrite <- Hs; exact Hv).
    rewrite (simulation_eval true w1 Hv), (simulation_eval true w2 Hv2).
    cbn [self cars np_random]. rewrite <- Hs, <- Hc.
    split; [reflexivity|]. split; [by apply rows_after_same_draws|].
    split; [apply rows_after_length|].
    intros m Hm i Hi. unfold advance. cbn [stream consumed].
    replace (length (cars w1) + consumed (np_random w1) + i)%nat
      with (consumed (np_random w1) + (length (cars w1) + i))%nat by lia.
    replace (length (cars w1) + consumed (np_random w2) + i)%nat
      with (consumed (np_random w2) + (length (cars w1) + i))%nat by lia.
    apply Hm. lia.
  - assert (Hn2 : ~ valid_proba (self w2)) by (rewrite <- Hs; exact Hn).
    unfold simulation. rewrite !bind_eval. unfold len_cars. rewrite <- Hc.
    destruct (cars w1) as [|car cs] eqn:Hcs.
    + cbn. split; [exact Hs|]. split; [congruence|]. split; [by rewrite Hcs|].
      intros m Hm. exact Hm.
    + cbn [length seq for_each]. rewrite !bind_eval.
      change simulation_body with (body true).
      rewrite (body_invalid true w1 0 Hn), (body_invalid true w2 0 Hn2). reflexivity.
Qed.

Lemma simulation_loop_same_draws (fuel : nat) :
  forall w1 w2,
    self w1 = self w2 ->
    cars w1 = cars w2 ->
    same_next_draws (fuel * length (cars w1)) (np_random w1) (np_random w2) ->
    frames_of (simulation_loop fuel w1) = frames_of (simulation_loop fuel w2).
Proof.
  induction fuel as [|fuel IH]; intros w1 w2 Hs Hc Hd; [reflexivity|].
  cbn [simulation_loop]. unfold mbind, Py_bind, get_self, get_cars, mret, Py_ret.
  rewrite <- Hs. destruct (bool_decide (t (self w1) < tmax (self w1))%Qc); [|reflexivity].
  assert (Hfirst : same_next_draws (length (cars w1)) (np_random w1) (np_random w2)).
  { intros i Hi. apply Hd. cbn [Nat.mul]. lia. }
  pose proof (simulation_same_draws w1 w2 Hs Hc Hfirst) as Hsim.
  destruct (simulation w1) as [[[] w1']|e1], (simulation w2) as [[[] w2']|e2];
    try contradiction; [|by rewrite Hsim].
  destruct Hsim as (Hs' & Hc' & Hlen & Hrest).
  rewrite <- Hs', <- Hc'.
  destruct (road (self w1') (cars w1')) as [r|e]; unfold lift; [|reflexivity].
  destruct (traffic_density (self w1') (cars w1')) as [d|e]; [|reflexivity].
  specialize (IH w1' w2' Hs' Hc').
  rewrite Hlen in IH.
  assert (Hd' : same_next_draws (length (cars w1) + fuel * length (cars w1))
                  (np_random w1) (np_random w2)) by exact Hd.
  specialize (IH (Hrest _ Hd')).
  destruct (simulation_loop fuel w1') as [[f1 v1]|e1],
           (simulation_loop fuel w2') as [[f2 v2]|e2];
    cbn in IH |- *; try discriminate; [|exact IH].
  injection IH as ->. reflexivity.
Qed.

Lemma create_cars_self (w : World) (cs : list Car) (w' : World) :
  create_cars w = Ok (cs, w') -> self w' = self w.
Proof.
  unfold create_cars, mbind, Py_bind, get_self, np_random_choice.
  destruct (_ || _); [discriminate|]. rewrite choose_eval. intros [= _ <-]. reflexivity.
Qed.

(** C6 (determinism under fixed randomness).  Take two runs of [linear_plot]
    on instances with the same six parameters.  If the uniform draws give both
    the same initial cars and the Bernoulli draws of the first [k] ticks are
    the same values ([nb_cars] per tick, in order, from wherever each
    generator stands once the cars are created), then the two runs go through
    the same positions and velocities in their first [k] ticks, and show the
    same occupancy and density vectors, or raise the same exception.  Nothing
    else matters: not the clock or the car array an earlier run left behind,
    not the position of the generator, not the draws that follow. *)
Theorem determinism_under_fixed_draws (w1 w2 : World) (cs : list Car)
    (w1' w2' : World) (k : nat) :
  same_parameters (self w1) (self w2) ->
  create_cars w1 = Ok (cs, w1') ->
  create_cars w2 = Ok (cs, w2') ->
  same_next_draws (k * length cs) (np_random w1') (np_random w2') ->
  trajectory_of (linear_plot k w1) = trajectory_of (linear_plot k w2) /\
  frames_of (linear_plot k w1) = frames_of (linear_plot k w2).
Proof.
  intros (HL & Hnb & Hvm & Htm & Hdt & Hpr) H1 H2 Hd.
  assert (Hframes : frames_of (linear_plot k w1) = frames_of (linear_plot k w2)).
  { unfold linear_plot, mbind, Py_bind, assign_cars, assign_t. rewrite H1, H2.
    cbn [self cars np_random].
    apply simulation_loop_same_draws; cbn [self cars np_random]; [|reflexivity|exact Hd].
    rewrite (create_cars_self _ _ _ H1), (create_cars_self _ _ _ H2).
    congruence. }
  split; [|exact Hframes].
  destruct (linear_plot k w1) as [[f1 v1]|e1], (linear_plot k w2) as [[f2 v2]|e2];
    cbn in Hframes |- *; try discriminate; [|by injection Hframes as ->].
  injection Hframes as ->. reflexivity.
Qed.

Lemma determinism_under_fixed_draws_witness :
  same_parameters (self (fresh_world off_road_self off_road_generator))
    (self rerun_world) /\
  create_cars (fresh_world off_road_self off_road_generator)
  = Ok ([mkCar 1 3; mkCar 3 3],
        after_create_cars (fresh_world off_road_self off_road_generator)) /\
  create_cars rerun_world = Ok ([mkCar 1 3; mkCar 3 3], after_create_cars rerun_world) /\
  same_next_draws (4 * length [mkCar 1 3; mkCar 3 3])
    (np_random (after_create_cars (fresh_world off_road_self off_road_generator)))
    (np_random (after_create_cars rerun_world)) /\
  trajectory_of (linear_plot 4 (fresh_world off_road_self off_road_generator))
  = trajectory_of (linear_plot 4 rerun_world) /\
  frames_of (linear_plot 4 (fresh_world off_road_self off_road_generator))
  = frames_of (linear_plot 4 rerun_world).
Proof.
  assert (Hp : same_parameters (self (fresh_world off_road_self off_road_generator))
                 (self rerun_world)) by (repeat split).
  assert (H1 : create_cars (fresh_world off_road_self off_road_generator)
               = Ok ([mkCar 1 3; mkCar 3 3],
                     after_create_cars (fresh_world off_road_self off_road_generator)))
    by (vm_compute; reflexivity).
  assert (H2 : create_cars rerun_world
               = Ok ([mkCar 1 3; mkCar 3 3], after_create_cars rerun_world))
    by (vm_compute; reflexivity).
  assert (Hd : same_next_draws (4 * length [mkCar 1 3; mkCar 3 3])
                 (np_random (after_create_cars (fresh_world off_road_self off_road_generator)))
                 (np_random (after_create_cars rerun_world))).
  { intros i Hi. cbn in Hi.
    do 8 (destruct i as [|i]; [vm_compute; reflexivity|]). lia. }
  split; [exact Hp|]. split; [exact H1|]. split; [exact H2|]. split; [exact Hd|].
  apply (determinism_under_fixed_draws
           (fresh_world off_road_self off_road_generator) rerun_world
           [mkCar 1 3; mkCar 3 3]
           (after_create_cars (fresh_world off_road_self off_road_generator))
           (after_create_cars rerun_world) 4);
    [exact Hp | exact H1 | exact H2 | exact Hd].
Defined.


(** The half of the position bound that does hold: after a tick on a road of
    positive length every position is below [L]. *)
Lemma positions_stay_below_L (w : World) :
  0 < L (self w) ->
  valid_proba (self w) ->
  exists w',
    simulation w = Ok (tt, w') /\
    forall ix car', cars w' !! ix = Some car' -> position car' < L (self w).
Proof.
  intros HL Hv. eexists. split; [apply (simulation_eval true w Hv)|].
  cbn [cars]. intros ix car' Hix'.
  assert (Hlt : (ix < length (cars w))%nat).
  { apply lookup_lt_Some in Hix'. by rewrite rows_after_length in Hix'. }
  destruct (lookup_lt_is_Some_2 (cars w) ix Hlt) as [car Hix].
  rewrite (rows_after_lookup _ _ _ _ _ _ _ _ car Hix) in Hix'.
  injection Hix' as <-. rewrite row_after_position by done.
  apply committed_lt. exact HL.
Qed.

(** C2 (bounds) fails on the code.  With [L = 9], two cars, [vmax = 3] and
    the draws of [off_road_generator], the car of index 1 wraps to cell 0 in
    the second tick; in the third tick the clamp [next_car[0] - 1] puts the
    car of index 0 at position -1, outside [[0, L)]; in the fourth tick that
    car "advances" from -1 to 8 and the deceleration branch gives it velocity
    [max (9 - 1) 0 = 8], above [vmax = 3]. *)
Theorem bounds_are_violated :
  trajectory_of (linear_plot 4 (fresh_world off_road_self off_road_generator))
  = Ok [[mkCar 2 0; mkCar 6 3];
        [mkCar 2 0; mkCar 0 3];
        [mkCar (-1) 0; mkCar 3 3];
        [mkCar 8 8; mkCar 6 3]] /\
  -1 < 0 /\
  vmax off_road_self < 8.
Proof. split; [vm_compute; reflexivity|]. split; reflexivity. Qed.

(** * Further properties of the occupancy and density vectors *)

Lemma np_index_Raise (n i : Z) (e : Exception) :
  np_index n i = Raise e -> e = IndexError /\ ~ (- n <= i < n).
Proof.
  unfold np_index.
  destruct (Z.leb_spec 0 i), (Z.ltb_spec i n); cbn [andb]; try discriminate;
    destruct (Z.leb_spec (- n) i), (Z.ltb_spec i 0); cbn [andb]; try discriminate;
    intros [= <-]; split; first [reflexivity | lia].
Qed.

Lemma road_loop_outcome (cs : list Car) :
  forall r,
    match road_loop r cs with
    | Ok _ => forall car, car ∈ cs -> on_road (Z.of_nat (length r)) car
    | Raise ValueError => False
    | Raise IndexError => exists car, car ∈ cs /\ ~ on_road (Z.of_nat (length r)) car
    end.
Proof.
  induction cs as [|car cs IH]; intros r.
  - cbn. intros car Hc. by apply elem_of_nil in Hc.
  - cbn [road_loop]. unfold vec_set.
    destruct (np_index (Z.of_nat (length r)) (position car)) as [i|e] eqn:Hi; cbn.
    + specialize (IH (<[i := 1%Qc]> r)). rewrite length_insert in IH.
      destruct (road_loop (<[i := 1%Qc]> r) cs) as [r'|[|]].
      * intros c Hc. apply elem_of_cons in Hc as [->|Hc]; [|by apply IH].
        unfold on_road. apply np_index_Ok in Hi. lia.
      * exact IH.
      * destruct IH as (c & Hc & Hout). exists c. split; [by apply list_elem_of_further|done].
    + apply np_index_Raise in Hi as [-> Hout].
      exists car. split; [apply list_elem_of_here | exact Hout].
Qed.

Lemma road_cases (slf : Departementale) (cs : list Car) :
  match road slf cs with
  | Ok r => 0 <= L slf /\ forall car, car ∈ cs -> on_road (L slf) car
  | Raise ValueError => L slf < 0
  | Raise IndexError => 0 <= L slf /\ exists car, car ∈ cs /\ ~ on_road (L slf) car
  end.
Proof.
  unfold road, np_zeros. destruct (Z.ltb_spec (L slf) 0) as [Hneg|Hpos]; [exact Hneg|].
  cbn. pose proof (road_loop_outcome cs (replicate (Z.to_nat (L slf)) 0%Qc)) as H.
  rewrite length_replicate, Z2Nat.id in H by done.
  destruct (road_loop _ cs) as [r|[|]]; [split; assumption | contradiction | split; assumption].
Qed.

(** The outcome of [__road] tells exactly where the cars are: it returns a
    vector when [L] is non-negative and every position indexes the road from
    the front or from the end; it raises [ValueError] when [L] is negative;
    and it raises [IndexError] when [L] is non-negative and some position is
    outside [[-L, L)]. *)
Theorem road_outcome (slf : Departementale) (cs : list Car) :
  match road slf cs with
  | Ok r => 0 <= L slf /\ forall car, car ∈ cs -> on_road (L slf) car
  | Raise ValueError => L slf < 0
  | Raise IndexError => 0 <= L slf /\ exists car, car ∈ cs /\ ~ on_road (L slf) car
  end.
Proof. exact (road_cases slf cs). Qed.

(** The vector [__road] returns has [L] entries; the entry of a cell is 1 if
    some car's position indexes that cell and 0 otherwise (several cars in one
    cell still give 1). *)
Theorem road_marks_occupied_cells (slf : Departementale) (cs : list Car) (r : list Qc) :
  road slf cs = Ok r ->
  Z.of_nat (length r) = L slf /\
  forall k, Z.of_nat k < L slf ->
    (occupied (L slf) cs k -> r !! k = Some 1%Qc) /\
    (~ occupied (L slf) cs k -> r !! k = Some 0%Qc).
Proof.
  intros H. apply road_spec in H as (HL & Hlen & Hrows). split; [lia|].
  intros k Hk. destruct (Hrows k Hk) as [[H1 Hocc]|[H0 Hfree]]; split; intros; done.
Qed.

Lemma road_marks_occupied_cells_witness :
  road two_bumps_self two_bumps_cars = Ok (road_or_nil two_bumps_self two_bumps_cars) /\
  Z.of_nat (length (road_or_nil two_bumps_self two_bumps_cars)) = L two_bumps_self /\
  forall k, Z.of_nat k < L two_bumps_self ->
    (occupied (L two_bumps_self) two_bumps_cars k ->
     road_or_nil two_bumps_self two_bumps_cars !! k = Some 1%Qc) /\
    (~ occupied (L two_bumps_self) two_bumps_cars k ->
     road_or_nil two_bumps_self two_bumps_cars !! k = Some 0%Qc).
Proof.
  split; [vm_compute; reflexivity|].
  apply (road_marks_occupied_cells two_bumps_self two_bumps_cars). vm_compute; reflexivity.
Defined.

Lemma traffic_density_cases (slf : Departementale) (cs : list Car) :
  match road slf cs with
  | Ok _ => exists d, traffic_density slf cs = Ok d /\ Z.of_nat (length d) = L slf
  | Raise e => traffic_density slf cs = Raise e
  end.
Proof.
  destruct (road slf cs) as [r|e] eqn:Hr.
  - pose proof (road_cases slf cs) as Ho. rewrite Hr in Ho. destruct Ho as [HL Hon].
    destruct (traffic_density_total slf cs HL Hon) as [d Hd]. exists d. split; [exact Hd|].
    apply traffic_density_spec in Hd as (_ & _ & Hlen & _). lia.
  - unfold traffic_density. rewrite Hr. reflexivity.
Qed.

(** [__traffic_density] fails exactly when [__road] does, and with the same
    exception: the smoothing loop itself never indexes outside the road. *)
Theorem traffic_density_raises_as_road (slf : Departementale) (cs : list Car) :
  match road slf cs with
  | Ok _ => exists d, traffic_density slf cs = Ok d /\ Z.of_nat (length d) = L slf
  | Raise e => traffic_density slf cs = Raise e
  end.
Proof. exact (traffic_density_cases slf cs). Qed.

Lemma road_cell (slf : Departementale) (cs : list Car) (r : list Qc) (i : nat) (v : Qc) :
  road slf cs = Ok r ->
  r !! i = Some v ->
  (v = 1%Qc /\ occupied (L slf) cs i) \/ (v = 0%Qc /\ ~ occupied (L slf) cs i).
Proof.
  intros Hr Hi. apply road_spec in Hr as (HL & Hlen & Hrows).
  assert (Hlt : Z.of_nat i < L slf) by (apply lookup_lt_Some in Hi; lia).
  destruct (Hrows i Hlt) as [[H1 Hocc]|[H0 Hfree]]; [left | right]; split; congruence.
Qed.

Ltac qc_closed :=
  match goal with
  | |- (_ <= _)%Qc => let H := fresh in intros H; vm_compute in H; discriminate H
  | |- (_ < _)%Qc => vm_compute; reflexivity
  | |- _ <> _ =>
      let H := fresh in
      intros H; apply (f_equal this) in H; vm_compute in H; discriminate H
  end.

(** Every entry of a density vector lies between 0 and 5/2, the value
    reached when a cell and its four neighbours are all occupied; the colour
    scale of the density image, fixed at [[0, 3]], is never exceeded. *)
Theorem density_range (slf : Departementale) (cs : list Car) (d : list Qc)
    (j : nat) (x : Qc) :
  traffic_density slf cs = Ok d ->
  d !! j = Some x ->
  (0 <= x)%Qc /\ (x <= five_halves)%Qc /\ (five_halves < Qc_of_Z 3)%Qc.
Proof.
  intros Hd Hj.
  apply traffic_density_spec in Hd as (r & Hr & Hlen & Hrows).
  assert (Hlt : Z.of_nat j < L slf) by (apply lookup_lt_Some in Hj; lia).
  destruct (Hrows j Hlt)
    as [[_ Hz]|[_ (a & b & c & e & f & Ha & Hb & Hc & He & Hf & Hval)]].
  - rewrite Hz in Hj. injection Hj as <-. repeat split; qc_closed.
  - rewrite Hval in Hj. injection Hj as <-.
    destruct (road_cell slf cs r _ a Hr Ha) as [[-> _]|[-> _]];
    destruct (road_cell slf cs r _ b Hr Hb) as [[-> _]|[-> _]];
    destruct (road_cell slf cs r _ c Hr Hc) as [[-> _]|[-> _]];
    destruct (road_cell slf cs r _ e Hr He) as [[-> _]|[-> _]];
    destruct (road_cell slf cs r _ f Hr Hf) as [[-> _]|[-> _]];
    repeat split; qc_closed.
Qed.

Lemma density_range_witness :
  traffic_density two_bumps_self two_bumps_cars
  = Ok (density_or_nil two_bumps_self two_bumps_cars) /\
  density_or_nil two_bumps_self two_bumps_cars !! 5%nat = Some three_quarters /\
  (0 <= three_quarters)%Qc /\ (three_quarters <= five_halves)%Qc /\
  (five_halves < Qc_of_Z 3)%Qc.
Proof.
  assert (H5 : density_or_nil two_bumps_self two_bumps_cars !! 5%nat = Some three_quarters).
  { destruct (density_or_nil two_bumps_self two_bumps_cars !! 5%nat) as [x|] eqn:Hx;
      vm_compute in Hx; [|discriminate].
    injection Hx as <-. f_equal. apply Qc_is_canon. reflexivity. }
  split; [vm_compute; reflexivity|]. split; [exact H5|].
  apply (density_range two_bumps_self two_bumps_cars
           (density_or_nil two_bumps_self two_bumps_cars) 5 three_quarters);
    [vm_compute; reflexivity | exact H5].
Defined.

(** Away from the four boundary indices, the density at an index is non-zero
    exactly when some car is within 2 cells of it. *)
Theorem density_support (slf : Departementale) (cs : list Car) (d : list Qc)
    (j : nat) (x : Qc) :
  traffic_density slf cs = Ok d ->
  d !! j = Some x ->
  ~ boundary (L slf) j ->
  (x <> 0%Qc <-> exists k, occupied (L slf) cs k /\ apart j k <= 2).
Proof.
  intros Hd Hj Hnb.
  apply traffic_density_spec in Hd as (r & Hr & Hlen & Hrows).
  assert (Hlt : Z.of_nat j < L slf) by (apply lookup_lt_Some in Hj; lia).
  destruct (Hrows j Hlt)
    as [[Hb _]|[_ (a & b & c & e & f & Ha & Hb & Hc & He & Hf & Hval)]];
    [contradiction|].
  rewrite Hval in Hj. injection Hj as <-. unfold boundary in Hnb.
  assert (Hnear : forall k, apart j k <= 2 ->
            k = (j - 2)%nat \/ k = (j - 1)%nat \/ k = j \/ k = (j + 1)%nat \/ k = (j + 2)%nat)
    by (intros k Hk; unfold apart in Hk; lia).
  destruct (road_cell slf cs r _ a Hr Ha) as [[-> Oa]|[-> Oa]];
  destruct (road_cell slf cs r _ b Hr Hb) as [[-> Ob]|[-> Ob]];
  destruct (road_cell slf cs r _ c Hr Hc) as [[-> Oc]|[-> Oc]];
  destruct (road_cell slf cs r _ e Hr He) as [[-> Oe]|[-> Oe]];
  destruct (road_cell slf cs r _ f Hr Hf) as [[-> Of]|[-> Of]];
  (split;
   [ intros Hx;
     first
       [ exists (j - 2)%nat; split; [exact Oa | unfold apart; lia]
       | exists (j - 1)%nat; split; [exact Ob | unfold apart; lia]
       | exists j; split; [exact Oc | unfold apart; lia]
       | exists (j + 1)%nat; split; [exact Oe | unfold apart; lia]
       | exists (j + 2)%nat; split; [exact Of | unfold apart; lia]
       | exfalso; apply Hx; apply Qc_is_canon; reflexivity ]
   | intros (k & Hk & Hclose);
     first
       [ qc_closed
       | exfalso; destruct (Hnear k Hclose) as [->|[->|[->|[->| ->]]]]; contradiction ] ]).
Qed.

Lemma density_support_witness :
  traffic_density two_bumps_self two_bumps_cars
  = Ok (density_or_nil two_bumps_self two_bumps_cars) /\
  density_or_nil two_bumps_self two_bumps_cars !! 5%nat = Some three_quarters /\
  ~ boundary (L two_bumps_self) 5 /\
  (three_quarters <> 0%Qc <->
   exists k, occupied (L two_bumps_self) two_bumps_cars k /\ apart 5 k <= 2).
Proof.
  assert (H5 : density_or_nil two_bumps_self two_bumps_cars !! 5%nat = Some three_quarters).
  { destruct (density_or_nil two_bumps_self two_bumps_cars !! 5%nat) as [x|] eqn:Hx;
      vm_compute in Hx; [|discriminate].
    injection Hx as <-. f_equal. apply Qc_is_canon. reflexivity. }
  assert (Hnb : ~ boundary (L two_bumps_self) 5) by (unfold boundary; cbn; lia).
  split; [vm_compute; reflexivity|]. split; [exact H5|]. split; [exact Hnb|].
  apply (density_support two_bumps_self two_bumps_cars
           (density_or_nil two_bumps_self two_bumps_cars) 5 three_quarters);
    [vm_compute; reflexivity | exact H5 | exact Hnb].
Defined.

(** * Further properties of one tick *)

Lemma simulation_rows (w : World) :
  valid_proba (self w) ->
  exists w',
    simulation w = Ok (tt, w') /\
    length (cars w') = length (cars w) /\
    np_random w' = advance (np_random w) (length (cars w)) /\
    forall ix car,
      cars w !! ix = Some car ->
      cars w' !! ix
      = Some (row_after true (L (self w)) (vmax (self w)) (length (cars w)) ix car
                (position_at (cars w) (successor (length (cars w)) ix))
                (go_signal (1 - proba_slow (self w))%Qc
                   (stream (np_random w) (consumed (np_random w) + ix)%nat))).
Proof.
  intros Hv. eexists. split; [apply (simulation_eval true w Hv)|]. cbn [cars np_random].
  split; [apply rows_after_length|]. split; [reflexivity|].
  intros ix car Hix. apply rows_after_lookup. exact Hix.
Qed.

Lemma committed_cases (Lz : Z) (n ix : nat) (car : Car) (s : Z) :
  committed Lz n ix car s = np_mod (position car + velocity car) Lz \/
  (ix <> (n - 1)%nat /\
   s <= np_mod (position car + velocity car) Lz /\
   np_mod (position car + velocity car) Lz - s < 3 /\
   committed Lz n ix car s = s - 1).
Proof.
  unfold committed. destruct (decide (ix = (n - 1)%nat)) as [->|Hne].
  - left. rewrite bool_decide_eq_false_2 by (intros H; apply H; reflexivity). reflexivity.
  - rewrite bool_decide_eq_true_2 by done. cbn [andb].
    destruct (Z.leb_spec s (np_mod (position car + velocity car) Lz));
      destruct (Z.ltb_spec (np_mod (position car + velocity car) Lz - s) 3);
      cbn [andb]; auto.
Qed.

(** What a call of [__simulation] can do, read off its outcome.  On an empty
    car array it returns at once and changes nothing.  With [proba_slow] in
    [[0, 1]] it always returns.  It never raises [IndexError]; the only
    exception it raises is the [ValueError] of [np.random.binomial], and only
    on a non-empty array with [proba_slow] outside [[0, 1]].  (The converse
    is not stated: NumPy tests the rounded [1 - proba_slow], which can still
    be 1 for a [proba_slow] just below 0.) *)
Theorem simulation_outcome (w : World) :
  (cars w = [] -> simulation w = Ok (tt, w)) /\
  (valid_proba (self w) -> exists w', simulation w = Ok (tt, w')) /\
  (forall e, simulation w = Raise e ->
     e = ValueError /\ cars w <> [] /\ ~ valid_proba (self w)).
Proof.
  split; [|split].
  - intros Hcs. unfold simulation. rewrite bind_eval. unfold len_cars. rewrite Hcs.
    reflexivity.
  - intros Hv. eexists. exact (simulation_eval true w Hv).
  - intros e He. destruct (cars w) as [|car cs] eqn:Hcs.
    + unfold simulation in He. rewrite bind_eval in He. unfold len_cars in He.
      rewrite Hcs in He. discriminate He.
    + destruct (decide (valid_proba (self w))) as [Hv|Hn].
      * rewrite (simulation_eval true w Hv) in He. discriminate He.
      * unfold simulation in He. rewrite bind_eval in He. unfold len_cars in He.
        rewrite Hcs in He. cbn [length seq for_each] in He. rewrite bind_eval in He.
        change simulation_body with (body true) in He.
        rewrite (body_invalid true w 0 Hn) in He. injection He as <-.
        split; [reflexivity|]. split; [discriminate | exact Hn].
Qed.

Lemma simulation_outcome_witness :
  cars empty_world = [] /\
  simulation empty_world = Ok (tt, empty_world) /\
  valid_proba (self scenario_world) /\
  (exists w', simulation scenario_world = Ok (tt, w')) /\
  simulation invalid_proba_world = Raise ValueError /\
  cars invalid_proba_world <> [] /\
  ~ valid_proba (self invalid_proba_world).
Proof.
  assert (Hr : simulation invalid_proba_world = Raise ValueError)
    by (vm_compute; reflexivity).
  split; [reflexivity|].
  split; [exact (proj1 (simulation_outcome empty_world) eq_refl)|].
  split; [exact scenario_valid|].
  split; [exact (proj1 (proj2 (simulation_outcome scenario_world)) scenario_valid)|].
  split; [exact Hr|].
  exact (proj2 (proj2 (proj2 (simulation_outcome invalid_proba_world)) ValueError Hr)).
Defined.

(** The draw schedule of a tick: the call consumes exactly one raw word per
    car, and the row written for the car of index [ix] depends on the
    generator only through the word of index [consumed + ix].  Two worlds
    with the same instance and cars whose generators agree on that one word
    end the tick with the same row [ix]. *)
Theorem draw_schedule (w1 w2 : World) (ix : nat) :
  valid_proba (self w1) ->
  self w1 = self w2 ->
  cars w1 = cars w2 ->
  stream (np_random w1) (consumed (np_random w1) + ix)%nat
  = stream (np_random w2) (consumed (np_random w2) + ix)%nat ->
  exists w1' w2',
    simulation w1 = Ok (tt, w1') /\
    simulation w2 = Ok (tt, w2') /\
    cars w1' !! ix = cars w2' !! ix /\
    consumed (np_random w1') = (length (cars w1) + consumed (np_random w1))%nat /\
    stream (np_random w1') = stream (np_random w1).
Proof.
  intros Hv Hs Hc Hd.
  assert (Hv2 : valid_proba (self w2)) by (rewrite <- Hs; exact Hv).
  destruct (simulation_rows w1 Hv) as (w1' & H1 & Hl1 & Hg1 & Hr1).
  destruct (simulation_rows w2 Hv2) as (w2' & H2 & Hl2 & Hg2 & Hr2).
  exists w1', w2'. split; [exact H1|]. split; [exact H2|].
  split; [|rewrite Hg1; split; reflexivity].
  destruct (cars w1 !! ix) as [car|] eqn:Hix.
  - rewrite (Hr1 ix car Hix). rewrite Hc in Hix. rewrite (Hr2 ix car Hix).
    rewrite <- Hs, <- Hc, Hd. reflexivity.
  - apply lookup_ge_None in Hix.
    rewrite (proj2 (lookup_ge_None (cars w1') ix)) by lia.
    rewrite Hc in Hix. rewrite (proj2 (lookup_ge_None (cars w2') ix)) by lia.
    reflexivity.
Qed.

Lemma draw_schedule_witness :
  valid_proba (self scenario_world) /\
  self scenario_world = self scenario_world' /\
  cars scenario_world = cars scenario_world' /\
  stream (np_random scenario_world) (consumed (np_random scenario_world) + 0)%nat
  = stream (np_random scenario_world') (consumed (np_random scenario_world') + 0)%nat /\
  exists w1' w2',
    simulation scenario_world = Ok (tt, w1') /\
    simulation scenario_world' = Ok (tt, w2') /\
    cars w1' !! 0%nat = cars w2' !! 0%nat /\
    consumed (np_random w1')
    = (length (cars scenario_world) + consumed (np_random scenario_world))%nat /\
    stream (np_random w1') = stream (np_random scenario_world).
Proof.
  split; [exact scenario_valid|]. split; [reflexivity|]. split; [reflexivity|].
  split; [reflexivity|].
  apply (draw_schedule scenario_world scenario_world' 0);
    [exact scenario_valid | reflexivity | reflexivity | reflexivity].
Defined.

(** Where a tick can put a car, whatever the state before it (on a road of
    positive length): always below [L]; and below 0 only by the clamp, that
    is, only for a car that is not the last one and whose successor stood at a
    position [<= 0] before the tick, exactly one cell behind that successor. *)
Theorem tick_position_range (w : World) :
  0 < L (self w) ->
  valid_proba (self w) ->
  exists w',
    simulation w = Ok (tt, w') /\
    forall ix car',
      cars w' !! ix = Some car' ->
      position car' < L (self w) /\
      (position car' < 0 ->
       exists succ,
         (ix + 1 < length (cars w))%nat /\
         cars w !! (ix + 1)%nat = Some succ /\
         position succ <= 0 /\
         position car' = position succ - 1).
Proof.
  intros HL Hv. destruct (simulation_rows w Hv) as (w' & Hsim & Hlen & _ & Hrows).
  exists w'. split; [exact Hsim|]. intros ix car' Hix'.
  assert (Hlt : (ix < length (cars w))%nat) by (apply lookup_lt_Some in Hix'; lia).
  destruct (lookup_lt_is_Some_2 (cars w) ix Hlt) as [car Hix].
  rewrite (Hrows ix car Hix) in Hix'. injection Hix' as <-.
  rewrite row_after_position by done.
  split; [apply committed_lt; exact HL|]. intros Hneg.
  pose proof (np_mod_range (position car + velocity car) (L (self w)) HL) as Hc.
  destruct (committed_cases (L (self w)) (length (cars w)) ix car
              (position_at (cars w) (successor (length (cars w)) ix)))
    as [Heq|(Hnl & Hle & Hgap & Heq)]; [lia|].
  destruct (lookup_lt_is_Some_2 (cars w) (ix + 1)) as [succ Hs]; [lia|].
  assert (Hpa : position_at (cars w) (successor (length (cars w)) ix) = position succ).
  { rewrite successor_not_last by done. unfold position_at. rewrite Hs. reflexivity. }
  rewrite Hpa in *.
  exists succ. split; [lia|]. split; [exact Hs|]. split; [lia | exact Heq].
Qed.

Lemma tick_position_range_witness :
  0 < L (self scenario_world) /\
  valid_proba (self scenario_world) /\
  exists w',
    simulation scenario_world = Ok (tt, w') /\
    forall ix car',
      cars w' !! ix = Some car' ->
      position car' < L (self scenario_world) /\
      (position car' < 0 ->
       exists succ,
         (ix + 1 < length (cars scenario_world))%nat /\
         cars scenario_world !! (ix + 1)%nat = Some succ /\
         position succ <= 0 /\
         position car' = position succ - 1).
Proof.
  split; [reflexivity|]. split; [exact scenario_valid|].
  apply (tick_position_range scenario_world); [reflexivity | exact scenario_valid].
Defined.

Lemma go_signal_01 (q : Qc) (r : N) : go_signal q r = 0 \/ go_signal q r = 1.
Proof. unfold go_signal. destruct (bool_decide _); auto. Qed.

Lemma np_mod_le (a Lz : Z) : 0 <= a -> 0 < Lz -> np_mod a Lz <= a.
Proof.
  intros Ha HL. unfold np_mod. destruct (Z.eqb_spec Lz 0); [lia|].
  apply Z.mod_le; lia.
Qed.

(** The bounds hold for one more tick as long as no car can be clamped below
    0: if before the tick every position is non-negative, every velocity is in
    [[0, vmax]] and no car other than the first sits in cell 0, then after the
    tick every position is in [[0, L)] and every velocity is in [[0, vmax]]. *)
Theorem tick_keeps_bounds (w : World) :
  0 < L (self w) ->
  valid_proba (self w) ->
  well_placed (vmax (self w)) (cars w) ->
  exists w',
    simulation w = Ok (tt, w') /\
    forall ix car',
      cars w' !! ix = Some car' ->
      0 <= position car' < L (self w) /\ 0 <= velocity car' <= vmax (self w).
Proof.
  intros HL Hv Hwp. destruct (simulation_rows w Hv) as (w' & Hsim & Hlen & _ & Hrows).
  exists w'. split; [exact Hsim|]. intros ix car' Hix'.
  assert (Hlt : (ix < length (cars w))%nat) by (apply lookup_lt_Some in Hix'; lia).
  destruct (lookup_lt_is_Some_2 (cars w) ix Hlt) as [car Hix].
  rewrite (Hrows ix car Hix) in Hix'. injection Hix' as <-.
  destruct (Hwp ix car Hix) as (Hp & Hvel & _).
  pose proof (np_mod_range (position car + velocity car) (L (self w)) HL) as Hc.
  pose proof (np_mod_le (position car + velocity car) (L (self w)) ltac:(lia) HL) as Hle.
  rewrite row_after_position by done.
  unfold row_after, new_velocity. cbn [velocity].
  set (q := go_signal _ _).
  assert (Hq : q = 0 \/ q = 1) by apply go_signal_01.
  destruct (committed_cases (L (self w)) (length (cars w)) ix car
              (position_at (cars w) (successor (length (cars w)) ix)))
    as [Heq|(Hnl & Hsle & Hgap & Heq)].
  - rewrite Heq. split; [lia|].
    destruct (Z.ltb_spec (np_mod (position car + velocity car) (L (self w))) (position car));
      [lia|]. destruct Hq as [-> | ->]; lia.
  - rewrite Heq.
    destruct (lookup_lt_is_Some_2 (cars w) (ix + 1)) as [succ Hs]; [lia|].
    destruct (Hwp (ix + 1)%nat succ Hs) as (_ & _ & Hpos).
    assert (Hpa : position_at (cars w) (successor (length (cars w)) ix) = position succ).
    { rewrite successor_not_last by done. unfold position_at. rewrite Hs. reflexivity. }
    rewrite Hpa in *.
    split; [lia|].
    destruct (Z.ltb_spec (position succ - 1) (position car)); [lia|].
    destruct Hq as [-> | ->]; lia.
Qed.

Lemma scenario_well_placed : well_placed (vmax (self scenario_world)) (cars scenario_world).
Proof.
  intros ix car Hix. destruct ix as [|[|ix]]; cbn in Hix; [| |discriminate];
    injection Hix as <-; cbn; lia.
Qed.

Lemma tick_keeps_bounds_witness :
  0 < L (self scenario_world) /\
  valid_proba (self scenario_world) /\
  well_placed (vmax (self scenario_world)) (cars scenario_world) /\
  exists w',
    simulation scenario_world = Ok (tt, w') /\
    forall ix car',
      cars w' !! ix = Some car' ->
      0 <= position car' < L (self scenario_world) /\
      0 <= velocity car' <= vmax (self scenario_world).
Proof.
  split; [reflexivity|]. split; [exact scenario_valid|].
  split; [exact scenario_well_placed|].
  apply (tick_keeps_bounds scenario_world);
    [reflexivity | exact scenario_valid | exact scenario_well_placed].
Defined.

(** The exact reach of the no-passing rule away from the wrap-around.  Take a
    car that is not the last one, at a non-negative position behind its
    successor, whose free-flow move stays on the road
    ([position + velocity < L]).  If its velocity is below the gap plus 3, the
    tick leaves it at or ahead of where it was and strictly behind the cell
    its successor had; if its velocity is the gap plus 3 or more, the rule does
    not fire and the car lands 3 or more cells beyond that cell. *)
Theorem overtaking_threshold (w : World) (ix : nat) (car succ : Car) :
  0 < L (self w) ->
  valid_proba (self w) ->
  cars w !! ix = Some car ->
  cars w !! (ix + 1)%nat = Some succ ->
  0 <= position car < position succ ->
  0 <= velocity car ->
  position car + velocity car < L (self w) ->
  exists w' car',
    simulation w = Ok (tt, w') /\
    cars w' !! ix = Some car' /\
    (velocity car < position succ - position car + 3 ->
     position car <= position car' < position succ) /\
    (position succ - position car + 3 <= velocity car ->
     position car' = position car + velocity car /\ position succ + 3 <= position car').
Proof.
  intros HL Hv Hix Hs Hpos Hvel Hfree.
  destruct (simulation_rows w Hv) as (w' & Hsim & Hlen & _ & Hrows).
  assert (Hlt : (ix + 1 < length (cars w))%nat) by (apply lookup_lt_Some in Hs; lia).
  eexists w', _. split; [exact Hsim|]. split; [apply (Hrows ix car Hix)|].
  rewrite row_after_position by done.
  assert (Hpa : position_at (cars w) (successor (length (cars w)) ix) = position succ).
  { rewrite successor_not_last by lia. unfold position_at. rewrite Hs. reflexivity. }
  rewrite Hpa.
  assert (Hc : np_mod (position car + velocity car) (L (self w))
               = position car + velocity car).
  { unfold np_mod. destruct (Z.eqb_spec (L (self w)) 0); [lia|].
    apply Z.mod_small. lia. }
  destruct (committed_cases (L (self w)) (length (cars w)) ix car (position succ))
    as [Heq|(_ & Hle & Hgap & Heq)]; rewrite Heq; rewrite Hc in *.
  - pose proof (committed_no_passing (L (self w)) (length (cars w)) ix car (position succ)
                  ltac:(lia)) as Hnp.
    rewrite Heq in Hnp. split; intros; lia.
  - split; intros; lia.
Qed.

Lemma overtaking_threshold_witness :
  0 < L (self close_world) /\
  valid_proba (self close_world) /\
  cars close_world !! 0%nat = Some (mkCar 1 3) /\
  cars close_world !! (0 + 1)%nat = Some (mkCar 3 1) /\
  0 <= position (mkCar 1 3) < position (mkCar 3 1) /\
  0 <= velocity (mkCar 1 3) /\
  position (mkCar 1 3) + velocity (mkCar 1 3) < L (self close_world) /\
  exists w' car',
    simulation close_world = Ok (tt, w') /\
    cars w' !! 0%nat = Some car' /\
    (velocity (mkCar 1 3) < position (mkCar 3 1) - position (mkCar 1 3) + 3 ->
     position (mkCar 1 3) <= position car' < position (mkCar 3 1)) /\
    (position (mkCar 3 1) - position (mkCar 1 3) + 3 <= velocity (mkCar 1 3) ->
     position car' = position (mkCar 1 3) + velocity (mkCar 1 3) /\
     position (mkCar 3 1) + 3 <= position car').
Proof.
  split; [reflexivity|]. split; [exact scenario_valid|]. split; [reflexivity|].
  split; [reflexivity|]. split; [cbn; lia|]. split; [cbn; lia|]. split; [reflexivity|].
  apply (overtaking_threshold close_world 0 (mkCar 1 3) (mkCar 3 1));
    [reflexivity | exact scenario_valid | reflexivity | reflexivity
    | cbn; lia | cbn; lia | reflexivity].
Defined.

Lemma uniform_range (r : N) : (0 <= uniform r)%Qc /\ (uniform r < 1)%Qc.
Proof.
  unfold uniform, Qcle, Qclt. cbn [this Q2Qc]. rewrite !Qred_correct.
  assert (H : (r mod 2 ^ 53 < 2 ^ 53)%N) by (apply N.mod_lt; discriminate).
  unfold Qle, Qlt. cbn [Qnum Qden].
  change (Z.pos (2 ^ 53)) with (Z.of_N (2 ^ 53)).
  remember (2 ^ 53)%N as m. remember (r mod m)%N as x. lia.
Qed.

Lemma go_signal_one (r : N) : go_signal 1%Qc r = 1.
Proof.
  unfold go_signal. rewrite bool_decide_eq_true_2; [reflexivity|]. apply uniform_range.
Qed.

Lemma go_signal_zero (r : N) : go_signal 0%Qc r = 0.
Proof.
  unfold go_signal. rewrite bool_decide_eq_false_2; [reflexivity|].
  apply Qcle_not_lt. apply uniform_range.
Qed.

Lemma valid_proba_0 (slf : Departementale) : proba_slow slf = 0%Qc -> valid_proba slf.
Proof. intros H. unfold valid_proba. rewrite H. split; intros Hc; vm_compute in Hc; discriminate. Qed.

Lemma valid_proba_1 (slf : Departementale) : proba_slow slf = 1%Qc -> valid_proba slf.
Proof. intros H. unfold valid_proba. rewrite H. split; intros Hc; vm_compute in Hc; discriminate. Qed.

(** With [proba_slow = 0] no car ever brakes, whatever the generator yields:
    after a tick every car that did not wrap has velocity
    [min (advance + 1) vmax], and a car that wrapped keeps its velocity. *)
Theorem never_brakes_when_proba_slow_is_0 (w : World) :
  0 < L (self w) ->
  proba_slow (self w) = 0%Qc ->
  exists w',
    simulation w = Ok (tt, w') /\
    forall ix car car',
      cars w !! ix = Some car ->
      cars w' !! ix = Some car' ->
      (position car' < position car -> velocity car' = velocity car) /\
      (position car <= position car' ->
       velocity car' = Z.min (position car' - position car + 1) (vmax (self w))).
Proof.
  intros HL H0. pose proof (valid_proba_0 _ H0) as Hv.
  destruct (simulation_rows w Hv) as (w' & Hsim & _ & _ & Hrows).
  exists w'. split; [exact Hsim|]. intros ix car car' Hix Hix'.
  rewrite (Hrows ix car Hix) in Hix'. injection Hix' as <-.
  rewrite row_after_position by done. unfold row_after, new_velocity. cbn [velocity].
  rewrite H0. replace (1 - 0)%Qc with 1%Qc by ring. rewrite go_signal_one.
  destruct (Z.ltb_spec
    (committed (L (self w)) (length (cars w)) ix car
       (position_at (cars w) (successor (length (cars w)) ix))) (position car));
    split; intros; lia.
Qed.

Lemma never_brakes_when_proba_slow_is_0_witness :
  0 < L (self scenario_world) /\
  proba_slow (self scenario_world) = 0%Qc /\
  exists w',
    simulation scenario_world = Ok (tt, w') /\
    forall ix car car',
      cars scenario_world !! ix = Some car ->
      cars w' !! ix = Some car' ->
      (position car' < position car -> velocity car' = velocity car) /\
      (position car <= position car' ->
       velocity car'
       = Z.min (position car' - position car + 1) (vmax (self scenario_world))).
Proof.
  split; [reflexivity|]. split; [reflexivity|].
  apply (never_brakes_when_proba_slow_is_0 scenario_world); reflexivity.
Defined.

(** With [proba_slow = 1] every car brakes at every tick, whatever the
    generator yields: a car that did not wrap ends with velocity
    [max (advance - 1) 0], and a car that wrapped keeps its velocity. *)
Theorem always_brakes_when_proba_slow_is_1 (w : World) :
  0 < L (self w) ->
  proba_slow (self w) = 1%Qc ->
  exists w',
    simulation w = Ok (tt, w') /\
    forall ix car car',
      cars w !! ix = Some car ->
      cars w' !! ix = Some car' ->
      (position car' < position car -> velocity car' = velocity car) /\
      (position car <= position car' ->
       velocity car' = Z.max (position car' - position car - 1) 0).
Proof.
  intros HL H1. pose proof (valid_proba_1 _ H1) as Hv.
  destruct (simulation_rows w Hv) as (w' & Hsim & _ & _ & Hrows).
  exists w'. split; [exact Hsim|]. intros ix car car' Hix Hix'.
  rewrite (Hrows ix car Hix) in Hix'. injection Hix' as <-.
  rewrite row_after_position by done. unfold row_after, new_velocity. cbn [velocity].
  rewrite H1. replace (1 - 1)%Qc with 0%Qc by ring. rewrite go_signal_zero.
  destruct (Z.ltb_spec
    (committed (L (self w)) (length (cars w)) ix car
       (position_at (cars w) (successor (length (cars w)) ix))) (position car));
    split; intros; lia.
Qed.

Lemma always_brakes_when_proba_slow_is_1_witness :
  0 < L (self braking_world) /\
  proba_slow (self braking_world) = 1%Qc /\
  exists w',
    simulation braking_world = Ok (tt, w') /\
    forall ix car car',
      cars braking_world !! ix = Some car ->
      cars w' !! ix = Some car' ->
      (position car' < position car -> velocity car' = velocity car) /\
      (position car <= position car' ->
       velocity car' = Z.max (position car' - position car - 1) 0).
Proof.
  split; [reflexivity|]. split; [reflexivity|].
  apply (always_brakes_when_proba_slow_is_1 braking_world); reflexivity.
Defined.

(** * Whole runs *)

Lemma tick_run_invariant (w : World) :
  run_invariant w ->
  exists w',
    simulation w = Ok (tt, w') /\
    self w' = set_t (self w) (t (self w) + tick_length (self w))%Qc /\
    run_invariant w' /\
    forall ix car, cars w' !! ix = Some car -> position car < L (self w).
Proof.
  intros (HL & Hvm & Hv & Hnb & Hlen & Hb).
  eexists. split; [apply (simulation_eval true w Hv)|]. cbn [self cars].
  assert (Hrow : forall ix car',
    rows_after true (L (self w)) (vmax (self w)) (1 - proba_slow (self w))%Qc
      (stream (np_random w)) (consumed (np_random w)) (cars w) 0 (length (cars w)) !! ix
    = Some car' ->
    - (nb_cars (self w) - 1 - Z.of_nat ix) <= position car' < L (self w) /\
    0 <= velocity car' <= velocity_cap (self w)).
  { intros ix car' Hix'.
    assert (Hlt : (ix < length (cars w))%nat).
    { apply lookup_lt_Some in Hix'. by rewrite rows_after_length in Hix'. }
    destruct (lookup_lt_is_Some_2 (cars w) ix Hlt) as [car Hix].
    rewrite (rows_after_lookup _ _ _ _ _ _ _ _ car Hix) in Hix'. injection Hix' as <-.
    destruct (Hb ix car Hix) as [Hp Hvel].
    pose proof (np_mod_range (position car + velocity car) (L (self w)) HL) as Hc.
    rewrite row_after_position by done. unfold row_after, new_velocity. cbn [velocity].
    set (q := go_signal _ _).
    assert (Hq : q = 0 \/ q = 1) by apply go_signal_01.
    unfold velocity_cap in *.
    destruct (committed_cases (L (self w)) (length (cars w)) ix car
                (position_at (cars w) (successor (length (cars w)) ix)))
      as [Heq|(Hnl & Hsle & Hgap & Heq)]; rewrite Heq.
    - split; [lia|].
      destruct (Z.ltb_spec (np_mod (position car + velocity car) (L (self w)))
                  (position car)); [lia|].
      destruct Hq as [-> | ->]; lia.
    - destruct (lookup_lt_is_Some_2 (cars w) (ix + 1)) as [succ Hs]; [lia|].
      destruct (Hb (ix + 1)%nat succ Hs) as [Hps _].
      assert (Hpa : position_at (cars w) (successor (length (cars w)) ix) = position succ).
      { rewrite successor_not_last by done. unfold position_at. rewrite Hs. reflexivity. }
      rewrite Hpa in *. split; [lia|].
      destruct (Z.ltb_spec (position succ - 1) (position car)); [lia|].
      destruct Hq as [-> | ->]; lia. }
  split.
  { unfold tick_length. rewrite iter_add_dt, Hlen. reflexivity. }
  split.
  - repeat split; cbn [self cars set_t L vmax nb_cars proba_slow]; try done; try lia.
    + apply Hv.
    + apply Hv.
    + rewrite rows_after_length. exact Hlen.
    + apply (Hrow ix car H).
    + apply (Hrow ix car H).
    + apply (Hrow ix car H).
  - intros ix car Hix. apply (Hrow ix car Hix).
Qed.

Lemma frame_after_tick (w : World) :
  run_invariant w ->
  (forall ix car, cars w !! ix = Some car -> position car < L (self w)) ->
  exists r d,
    road (self w) (cars w) = Ok r /\
    traffic_density (self w) (cars w) = Ok d /\
    frame_in_bounds (self w) (mkFrame (cars w) r d).
Proof.
  intros (HL & Hvm & Hv & Hnb & Hlen & Hb) Hup.
  assert (Hon : forall car, car ∈ cars w -> on_road (L (self w)) car).
  { intros car Hin. apply list_elem_of_lookup in Hin as [ix Hix].
    destruct (Hb ix car Hix) as [Hp _]. specialize (Hup ix car Hix).
    unfold on_road. lia. }
  pose proof (road_cases (self w) (cars w)) as Hr.
  destruct (road (self w) (cars w)) as [r|[|]] eqn:Hroad;
    [| lia | destruct Hr as (_ & car & Hin & Hout); destruct (Hout (Hon car Hin))].
  destruct (traffic_density_total (self w) (cars w) ltac:(lia) Hon) as [d Hd].
  exists r, d. split; [reflexivity|]. split; [exact Hd|].
  split; [exact Hlen|]. split; [|split; [exact Hroad | exact Hd]].
  intros ix car Hix. cbn [frame_cars] in Hix.
  destruct (Hb ix car Hix) as [Hp Hvel]. specialize (Hup ix car Hix). lia.
Qed.

Lemma loop_exit (fuel : nat) (w : World) :
  ~ (t (self w) < tmax (self w))%Qc -> simulation_loop fuel w = Ok ([], w).
Proof.
  intros H. destruct fuel as [|fuel]; [reflexivity|].
  cbn [simulation_loop]. rewrite bind_eval. unfold get_self at 1.
  rewrite bool_decide_eq_false_2 by exact H. reflexivity.
Qed.

Lemma loop_iteration (w : World) :
  run_invariant w ->
  (t (self w) < tmax (self w))%Qc ->
  exists w1 r d,
    simulation w = Ok (tt, w1) /\
    self w1 = set_t (self w) (t (self w) + tick_length (self w))%Qc /\
    run_invariant w1 /\
    frame_in_bounds (self w) (mkFrame (cars w1) r d) /\
    forall fuel,
      simulation_loop (S fuel) w
      = match simulation_loop fuel w1 with
        | Ok (rest, w2) => Ok (mkFrame (cars w1) r d :: rest, w2)
        | Raise e => Raise e
        end.
Proof.
  intros Hinv Hlt.
  destruct (tick_run_invariant w Hinv) as (w1 & Hsim & Hself & Hinv1 & Hup).
  assert (HL1 : L (self w1) = L (self w)) by (rewrite Hself; reflexivity).
  rewrite <- HL1 in Hup.
  destruct (frame_after_tick w1 Hinv1 Hup) as (r & d & Hr & Hd & Hf).
  exists w1, r, d. split; [exact Hsim|]. split; [exact Hself|]. split; [exact Hinv1|].
  split; [rewrite Hself in Hf; exact Hf|]. intros fuel.
  cbn [simulation_loop]. rewrite bind_eval. unfold get_self at 1.
  rewrite bool_decide_eq_true_2 by exact Hlt.
  rewrite bind_eval, Hsim.
  rewrite bind_eval. unfold get_self at 1. rewrite bind_eval. unfold get_cars at 1.
  rewrite bind_eval. unfold lift at 1. rewrite Hr.
  rewrite bind_eval. unfold lift at 1. rewrite Hd.
  rewrite bind_eval. destruct (simulation_loop fuel w1) as [[rest w2]|e]; reflexivity.
Qed.

Lemma frame_in_bounds_set_t (slf : Departementale) (v : Qc) (f : Frame) :
  frame_in_bounds (set_t slf v) f -> frame_in_bounds slf f.
Proof. intros H. exact H. Qed.

Lemma loop_safe (fuel : nat) :
  forall w,
    run_invariant w ->
    exists frames w',
      simulation_loop fuel w = Ok (frames, w') /\
      Forall (frame_in_bounds (self w)) frames.
Proof.
  induction fuel as [|fuel IH]; intros w Hinv.
  - exists [], w. split; [reflexivity | constructor].
  - destruct (decide (t (self w) < tmax (self w))%Qc) as [Hlt|Hge].
    + destruct (loop_iteration w Hinv Hlt)
        as (w1 & r & d & Hsim & Hself & Hinv1 & Hf & Hloop).
      destruct (IH w1 Hinv1) as (rest & w2 & Hrest & Hall).
      exists (mkFrame (cars w1) r d :: rest), w2. rewrite Hloop, Hrest.
      split; [reflexivity|]. constructor; [exact Hf|].
      rewrite Hself in Hall.
      eapply List.Forall_impl; [|exact Hall]. intros f Hfr. exact Hfr.
    + exists [], w. split; [apply loop_exit; exact Hge | constructor].
Qed.

Lemma created_row (str : nat -> N) (c0 n i : nat) (car : Car) :
  zip_with mkCar ((fun k => 2 * Z.of_nat k + 1) <$> seq 0 n)
    ((fun k => pick [1; 2; 3] (str (c0 + k)%nat)) <$> seq 0 n) !! i = Some car ->
  (i < n)%nat /\ position car = 2 * Z.of_nat i + 1 /\ 1 <= velocity car <= 3.
Proof.
  intros H. apply lookup_zip_with_Some in H as (x & y & -> & Hx & Hy).
  rewrite list_lookup_fmap in Hx, Hy.
  destruct (seq 0 n !! i) as [k|] eqn:Hk; [|discriminate].
  apply lookup_seq in Hk as [-> Hlt]. cbn in Hx, Hy.
  injection Hx as <-. injection Hy as <-. cbn [position velocity].
  split; [exact Hlt|]. split; [lia|].
  destruct (pick_123 (str (c0 + i)%nat)) as [-> | [-> | ->]]; lia.
Qed.

Lemma linear_plot_start (w : World) :
  0 <= nb_cars (self w) ->
  exists w0,
    (forall fuel, linear_plot fuel w = simulation_loop fuel w0) /\
    self w0 = set_t (self w) 0%Qc /\
    (0 < L (self w) -> 0 <= vmax (self w) -> valid_proba (self w) ->
     nb_cars (self w) <= L (self w) -> run_invariant w0).
Proof.
  intros Hnb. eexists. split; [|split].
  - intros fuel. unfold linear_plot. rewrite bind_eval, create_cars_eval by done.
    rewrite bind_eval. unfold assign_cars at 1. rewrite bind_eval. unfold assign_t at 1.
    cbn [self cars np_random]. reflexivity.
  - reflexivity.
  - intros HL Hvm Hv Hle. unfold run_invariant. cbn [self cars].
    split; [exact HL|]. split; [exact Hvm|]. split; [exact Hv|].
    split; [split; [exact Hnb | exact Hle]|]. split.
    + rewrite length_zip_with, !length_fmap, !length_seq.
      cbn [nb_cars set_t]. lia.
    + intros ix car Hix. apply created_row in Hix as (Hlt & Hp & Hvel).
      unfold velocity_cap. cbn [L vmax nb_cars set_t]. lia.
Qed.

(** A run of [linear_plot] never raises: for a road of positive length, a
    non-negative [vmax], [proba_slow] in [[0, 1]] and between 0 and [L] cars,
    every number of passes of the loop returns its frames.  In every frame the
    array has [nb_cars] rows; the row of index [ix] is below [L] and at most
    [nb_cars - 1 - ix] cells below 0, so that it indexes the road and
    [__road] and [__traffic_density] return their vectors; and every velocity
    is between 0 and [max (max 3 vmax) (L + nb_cars - 2)]. *)
Theorem linear_plot_never_raises (w : World) (fuel : nat) :
  0 < L (self w) ->
  0 <= vmax (self w) ->
  valid_proba (self w) ->
  0 <= nb_cars (self w) <= L (self w) ->
  exists frames w',
    linear_plot fuel w = Ok (frames, w') /\
    Forall (frame_in_bounds (self w)) frames.
Proof.
  intros HL Hvm Hv [Hnb Hle].
  destruct (linear_plot_start w Hnb) as (w0 & Hstart & Hself & Hinv).
  destruct (loop_safe fuel w0 (Hinv HL Hvm Hv Hle)) as (frames & w' & Hrun & Hall).
  exists frames, w'. split; [rewrite Hstart; exact Hrun|].
  rewrite Hself in Hall. eapply List.Forall_impl; [|exact Hall]. intros f Hf. exact Hf.
Qed.

Lemma linear_plot_never_raises_witness :
  0 < L (self scenario_world) /\
  0 <= vmax (self scenario_world) /\
  valid_proba (self scenario_world) /\
  0 <= nb_cars (self scenario_world) <= L (self scenario_world) /\
  exists frames w',
    linear_plot 5 scenario_world = Ok (frames, w') /\
    Forall (frame_in_bounds (self scenario_world)) frames.
Proof.
  split; [reflexivity|]. split; [discriminate|]. split; [exact scenario_valid|].
  split; [split; discriminate|].
  apply (linear_plot_never_raises scenario_world 5);
    [reflexivity | discriminate | exact scenario_valid | split; discriminate].
Defined.

(** ** The three plotting methods *)

Lemma polar_loop_trajectory (fuel : nat) :
  forall w,
    polar_trajectory_of (polar_loop fuel w) = trajectory_of (simulation_loop fuel w).
Proof.
  induction fuel as [|fuel IH]; intros w; [reflexivity|].
  cbn [polar_loop simulation_loop].
  unfold mbind, Py_bind, get_self, get_cars, mret, Py_ret.
  destruct (bool_decide (t (self w) < tmax (self w))%Qc); [|reflexivity].
  destruct (simulation w) as [[[] w1]|e]; [|reflexivity].
  pose proof (traffic_density_cases (self w1) (cars w1)) as Hd.
  destruct (road (self w1) (cars w1)) as [r|e]; unfold lift; [|reflexivity].
  destruct Hd as (d & Hd & _). rewrite Hd. specialize (IH w1).
  destruct (polar_loop fuel w1) as [[f1 w2]|e1], (simulation_loop fuel w1) as [[f2 w3]|e2];
    cbn in IH |- *; try discriminate; [|exact IH].
  injection IH as IH. rewrite IH. reflexivity.
Qed.

Lemma combined_loop_trajectory (fuel : nat) :
  forall w,
    combined_trajectory_of (combined_loop fuel w)
    = trajectory_of (simulation_loop fuel w).
Proof.
  induction fuel as [|fuel IH]; intros w; [reflexivity|].
  cbn [combined_loop simulation_loop].
  unfold mbind, Py_bind, get_self, get_cars, mret, Py_ret.
  destruct (bool_decide (t (self w) < tmax (self w))%Qc); [|reflexivity].
  destruct (simulation w) as [[[] w1]|e]; [|reflexivity].
  pose proof (traffic_density_cases (self w1) (cars w1)) as Hd.
  destruct (road (self w1) (cars w1)) as [r|e]; unfold lift; [|reflexivity].
  destruct Hd as (d & Hd & _). rewrite Hd. specialize (IH w1).
  destruct (combined_loop fuel w1) as [[f1 w2]|e1],
           (simulation_loop fuel w1) as [[f2 w3]|e2];
    cbn in IH |- *; try discriminate; [|exact IH].
  injection IH as IH. rewrite IH. reflexivity.
Qed.

(** The three plotting methods animate the same simulation: on a road of
    non-negative length, started in the same state, [polar_plot] and
    [combined_plot] go through exactly the positions and velocities that
    [linear_plot] goes through, tick after tick, and if one of them raises,
    the others raise the same exception. *)
Theorem plots_share_the_trajectory (w : World) (fuel : nat) :
  0 <= L (self w) ->
  polar_trajectory_of (polar_plot fuel w) = trajectory_of (linear_plot fuel w) /\
  combined_trajectory_of (combined_plot fuel w) = trajectory_of (linear_plot fuel w).
Proof.
  intros HL. unfold polar_plot, combined_plot, linear_plot.
  unfold mbind, Py_bind, get_self, assign_cars, assign_t, np_linspace_check, lift.
  destruct (create_cars w) as [[cs w1]|e] eqn:Hc; [|split; reflexivity].
  assert (HL1 : L (self w1) = L (self w)).
  { unfold create_cars, mbind, Py_bind, get_self, np_random_choice in Hc.
    destruct (_ || _) in Hc; [discriminate|].
    rewrite choose_eval in Hc. injection Hc as _ <-. reflexivity. }
  cbn [self cars np_random].
  destruct (Z.ltb_spec (L (self w1)) 0); [lia|].
  split; [apply polar_loop_trajectory | apply combined_loop_trajectory].
Qed.

Lemma plots_share_the_trajectory_witness :
  0 <= L (self scenario_world) /\
  polar_trajectory_of (polar_plot 3 scenario_world)
  = trajectory_of (linear_plot 3 scenario_world) /\
  combined_trajectory_of (combined_plot 3 scenario_world)
  = trajectory_of (linear_plot 3 scenario_world).
Proof.
  split; [discriminate|]. apply (plots_share_the_trajectory scenario_world 3). discriminate.
Defined.

Lemma loop_never_stops (fuel : nat) :
  forall w,
    run_invariant w ->
    (tick_length (self w) <= 0)%Qc ->
    (t (self w) < tmax (self w))%Qc ->
    exists frames w', simulation_loop fuel w = Ok (frames, w') /\ length frames = fuel.
Proof.
  induction fuel as [|fuel IH]; intros w Hinv Hc Hlt.
  - exists [], w. split; reflexivity.
  - destruct (loop_iteration w Hinv Hlt)
      as (w1 & r & d & Hsim & Hself & Hinv1 & Hf & Hloop).
    destruct (IH w1 Hinv1) as (rest & w2 & Hrest & Hlen).
    + rewrite Hself. exact Hc.
    + rewrite Hself. cbn [t tmax set_t].
      apply Qcle_lt_trans with (t (self w)); [|exact Hlt].
      replace (t (self w)) with (t (self w) + 0)%Qc at 2 by ring.
      by apply Qcplus_le_mono_l.
    + exists (mkFrame (cars w1) r d :: rest), w2. rewrite Hloop, Hrest.
      split; [reflexivity | cbn [length]; by rewrite Hlen].
Qed.

(** [linear_plot] does not terminate when a tick does not advance the clock:
    with no car, or with a [dt] that is not positive, and a positive [tmax],
    the loop makes as many passes as it is given (the configuration being
    otherwise as above). *)
Theorem linear_plot_runs_forever (w : World) (fuel : nat) :
  0 < L (self w) ->
  0 <= vmax (self w) ->
  valid_proba (self w) ->
  0 <= nb_cars (self w) <= L (self w) ->
  (tick_length (self w) <= 0)%Qc ->
  (0 < tmax (self w))%Qc ->
  exists frames w',
    linear_plot fuel w = Ok (frames, w') /\ length frames = fuel.
Proof.
  intros HL Hvm Hv [Hnb Hle] Hc Hmax.
  destruct (linear_plot_start w Hnb) as (w0 & Hstart & Hself & Hinv).
  destruct (loop_never_stops fuel w0 (Hinv HL Hvm Hv Hle)) as (frames & w' & Hrun & Hlen).
  - rewrite Hself. exact Hc.
  - rewrite Hself. exact Hmax.
  - exists frames, w'. split; [rewrite Hstart; exact Hrun | exact Hlen].
Qed.

Lemma linear_plot_runs_forever_witness :
  0 < L (self empty_world) /\
  0 <= vmax (self empty_world) /\
  valid_proba (self empty_world) /\
  0 <= nb_cars (self empty_world) <= L (self empty_world) /\
  (tick_length (self empty_world) <= 0)%Qc /\
  (0 < tmax (self empty_world))%Qc /\
  exists frames w',
    linear_plot 7 empty_world = Ok (frames, w') /\ length frames = 7%nat.
Proof.
  assert (Hv : valid_proba (self empty_world))
    by (split; intros H; vm_compute in H; discriminate).
  assert (Hc : (tick_length (self empty_world) <= 0)%Qc)
    by (intros H; vm_compute in H; discriminate).
  split; [reflexivity|]. split; [discriminate|]. split; [exact Hv|].
  split; [split; discriminate|]. split; [exact Hc|]. split; [vm_compute; reflexivity|].
  apply (linear_plot_runs_forever empty_world 7);
    [reflexivity | discriminate | exact Hv | split; discriminate | exact Hc
    | vm_compute; reflexivity].
Defined.

(** What [__create_cars] does, read off its outcome: it raises [ValueError]
    exactly when [nb_cars] is negative; otherwise it returns [nb_cars] rows
    and leaves the instance and the current car array as they are (the
    caller binds the new array). *)
Theorem create_cars_outcome (w : World) :
  match create_cars w with
  | Ok (cs, w') =>
      0 <= nb_cars (self w) /\
      Z.of_nat (length cs) = nb_cars (self w) /\
      self w' = self w /\
      cars w' = cars w
  | Raise ValueError => nb_cars (self w) < 0
  | Raise IndexError => False
  end.
Proof.
  destruct (Z.le_gt_cases 0 (nb_cars (self w))) as [Hnb|Hneg].
  - rewrite (create_cars_eval w Hnb). cbn [self cars np_random].
    split; [exact Hnb|]. split; [|repeat split].
    rewrite length_zip_with, !length_fmap, !length_seq. lia.
  - unfold create_cars, mbind, Py_bind, get_self, np_random_choice.
    destruct (Z.ltb_spec (nb_cars (self w)) 0); [|lia]. cbn. exact Hneg.
Qed.
